(** * intrusive_ptr: an intrusive, reference-counted smart pointer

    A shallow embedding of [solution.h]: the embedded counter
    [intrusive_ref_counter], the free functions [intrusive_ptr_add_ref]
    and [intrusive_ptr_release], and the handle [intrusive_ptr] with its
    constructors, assignments, [reset], [detach], [swap] and comparisons.

    Objects and handles live in an explicit store.  A pointer is an
    address ([Z], with [nullptr = 0]); the heap maps the address of each
    live object to its [ref_counter]; every handle object has an
    identity of its own and a [ptr] field, so that aliasing between
    handles ([this == &r]) is visible.  Methods are computations in a
    small state-and-error monad.  The state also keeps the sequence of
    calls of the two free functions and of [delete], so that the number
    of calls an operation makes can be stated. *)

From stdpp Require Import gmap list.
From Stdlib Require Import ZArith Lia.

Local Open Scope Z_scope.

(** ** Machine integers *)

(** [std::atomic<size_t>] on the 64-bit target: arithmetic modulo 2^64. *)
Definition size_t_modulus : Z := 2 ^ 64.
Definition wrap (z : Z) : Z := z mod size_t_modulus.

(** [unsigned int], the return type of [use_count]. *)
Definition unsigned_int_modulus : Z := 2 ^ 32.

Definition nullptr : Z := 0.

(** ** The store *)

(** What the free functions did, in program order.  [EvRelease p old]
    records the value [fetch_sub] observed. *)
Inductive event :=
  | EvAddRef (p : Z)
  | EvRelease (p : Z) (old : Z)
  | EvDelete (p : Z).

Global Instance event_eq_dec : EqDecision event.
Proof. solve_decision. Defined.

Record state := State {
  heap : gmap Z Z;        (* live objects: address |-> ref_counter *)
  handles : gmap nat Z;   (* live intrusive_ptr objects: identity |-> ptr *)
  trace : list event
}.

Definition init : state := State ∅ ∅ [].

(** ** The monad *)

Inductive result (A : Type) :=
  | Ok (a : A) (s : state)
  | AssertionViolation          (* a failed [assert] *)
  | Undefined.                  (* use of a dead object or of a dead handle *)
Arguments Ok {A} a s.
Arguments AssertionViolation {A}.
Arguments Undefined {A}.

Definition M (A : Type) : Type := state → result A.

Global Instance M_ret : MRet M := λ A a s, Ok a s.
Global Instance M_bind : MBind M := λ A B f m s,
  match m s with
  | Ok a s' => f a s'
  | AssertionViolation => AssertionViolation
  | Undefined => Undefined
  end.

Definition cxx_assert (b : bool) : M unit := λ s,
  if b then Ok tt s else AssertionViolation.

Definition emit (e : event) : M unit := λ s,
  Ok tt (State (heap s) (handles s) (trace s ++ [e])).

(** *** Objects *)

(** Storage for a new object whose counter is initialised to [c]. *)
Definition object_alloc (p : Z) (c : Z) : M unit := λ s,
  if decide (p = nullptr) then Undefined else
  match heap s !! p with
  | Some _ => Undefined
  | None => Ok tt (State (<[p := c]> (heap s)) (handles s) (trace s))
  end.

(** [delete static_cast<const Derived*>(p)] *)
Definition delete_object (p : Z) : M unit := λ s,
  match heap s !! p with
  | Some _ => Ok tt (State (delete p (heap s)) (handles s) (trace s ++ [EvDelete p]))
  | None => Undefined
  end.

(** [p->ref_counter.load(...)] *)
Definition atomic_load (p : Z) : M Z := λ s,
  match heap s !! p with
  | Some c => Ok c s
  | None => Undefined
  end.

(** [p->ref_counter.fetch_add(n, ...)]: one read-modify-write returning
    the value held before. *)
Definition atomic_fetch_add (p : Z) (n : Z) : M Z := λ s,
  match heap s !! p with
  | Some c => Ok c (State (<[p := wrap (c + n)]> (heap s)) (handles s) (trace s))
  | None => Undefined
  end.

(** [p->ref_counter.fetch_sub(n, ...)] *)
Definition atomic_fetch_sub (p : Z) (n : Z) : M Z := λ s,
  match heap s !! p with
  | Some c => Ok c (State (<[p := wrap (c - n)]> (heap s)) (handles s) (trace s))
  | None => Undefined
  end.

(** *** Handle objects *)

Definition handle_alloc (h : nat) (v : Z) : M unit := λ s,
  match handles s !! h with
  | Some _ => Undefined
  | None => Ok tt (State (heap s) (<[h := v]> (handles s)) (trace s))
  end.

Definition handle_free (h : nat) : M unit := λ s,
  match handles s !! h with
  | Some _ => Ok tt (State (heap s) (delete h (handles s)) (trace s))
  | None => Undefined
  end.

Definition field_read (h : nat) : M Z := λ s,
  match handles s !! h with
  | Some v => Ok v s
  | None => Undefined
  end.

Definition field_write (h : nat) (v : Z) : M unit := λ s,
  match handles s !! h with
  | Some _ => Ok tt (State (heap s) (<[h := v]> (handles s)) (trace s))
  | None => Undefined
  end.

(** The storage of a temporary such as [intrusive_ptr(r)]. *)
Definition fresh_handle : M nat := λ s, Ok (fresh (dom (handles s))) s.

(** The [T&] returned by [operator*] and by an assignment operator: the
    object at an address. *)
Inductive reference := Ref (p : Z).

(** The end of the body of a function that returns a value, reached
    without a [return] statement: the behaviour is undefined. *)
Definition flows_off_the_end {A} : M A := λ _, Undefined.

(** ** [intrusive_ref_counter] *)

Module intrusive_ref_counter.

(** [intrusive_ref_counter() noexcept : ref_counter(0) {}] *)
Definition ctor (this : Z) : M unit := object_alloc this 0.

(** [intrusive_ref_counter(const intrusive_ref_counter& v) noexcept
      : ref_counter(0) {}] *)
Definition copy_ctor (this v : Z) : M unit := object_alloc this 0.

(** [intrusive_ref_counter& operator=(const intrusive_ref_counter& v)
      noexcept {}]: the body is empty.  No field is written, and control
    reaches the end of a function that returns a reference without
    having met a [return]. *)
Definition assign (this v : Z) : M reference := flows_off_the_end.

(** [unsigned int use_count() const noexcept]: the [size_t] counter is
    returned as an [unsigned int]. *)
Definition use_count (this : Z) : M Z :=
  c ← atomic_load this; mret (c mod unsigned_int_modulus).

End intrusive_ref_counter.

(** ** The bridging free functions *)

Definition intrusive_ptr_add_ref (p : Z) : M unit :=
  emit (EvAddRef p) ;;
  _ ← atomic_fetch_add p 1;
  mret tt.

Definition intrusive_ptr_release (p : Z) : M unit :=
  old ← atomic_fetch_sub p 1;
  emit (EvRelease p old) ;;
  if old =? 1 then delete_object p else mret tt.

(** ** [intrusive_ptr] *)

Module intrusive_ptr.

(** [intrusive_ptr() noexcept {}], with [T* ptr{nullptr}] *)
Definition ctor_default (this : nat) : M unit := handle_alloc this nullptr.

(** [intrusive_ptr(T* p, bool add_ref = true)] *)
Definition ctor_raw (this : nat) (p : Z) (add_ref : bool) : M unit :=
  handle_alloc this p ;;
  if negb (p =? nullptr) && add_ref then intrusive_ptr_add_ref p else mret tt.

(** [intrusive_ptr(intrusive_ptr const& r)]; the converting
    [intrusive_ptr(intrusive_ptr<Y> const& r)] has the same body, the
    [static_cast] keeping the object. *)
Definition ctor_copy (this r : nat) : M unit :=
  rp ← field_read r;
  handle_alloc this rp ;;
  ptr ← field_read this;
  if negb (ptr =? nullptr) then intrusive_ptr_add_ref ptr else mret tt.

(** [intrusive_ptr(intrusive_ptr&& r)] and its converting form *)
Definition ctor_move (this r : nat) : M unit :=
  rp ← field_read r;
  handle_alloc this rp ;;
  field_write r nullptr.

(** [~intrusive_ptr()] *)
Definition dtor (this : nat) : M unit :=
  ptr ← field_read this;
  (if negb (ptr =? nullptr) then intrusive_ptr_release ptr else mret tt) ;;
  handle_free this.

(** [void swap(intrusive_ptr& b) noexcept { std::swap(ptr, b.ptr); }] *)
Definition swap (this b : nat) : M unit :=
  x ← field_read this;
  y ← field_read b;
  field_write this y ;;
  field_write b x.

(** [intrusive_ptr(...).swap( *this )]: the temporary is constructed,
    swapped with [*this] and destroyed at the end of the statement. *)
Definition temporary_swap (construct : nat → M unit) (this : nat) : M unit :=
  tmp ← fresh_handle;
  construct tmp ;;
  swap tmp this ;;
  dtor tmp.

(** [operator=(intrusive_ptr const& r)] *)
Definition assign_copy (this r : nat) : M nat :=
  (if decide (this ≠ r)
   then temporary_swap (λ tmp, ctor_copy tmp r) this
   else mret tt) ;;
  mret this.

(** [operator=(intrusive_ptr<Y> const& r)] *)
Definition assign_copy_conv (this r : nat) : M nat :=
  temporary_swap (λ tmp, ctor_copy tmp r) this ;;
  mret this.

(** [operator=(T* r)] *)
Definition assign_raw (this : nat) (r : Z) : M nat :=
  ptr ← field_read this;
  (if decide (ptr ≠ r)
   then temporary_swap (λ tmp, ctor_raw tmp r true) this
   else mret tt) ;;
  mret this.

(** [operator=(intrusive_ptr&& r)] *)
Definition assign_move (this r : nat) : M nat :=
  (if decide (this ≠ r)
   then temporary_swap (λ tmp, ctor_move tmp r) this
   else mret tt) ;;
  mret this.

(** [operator=(intrusive_ptr<Y>&& r)] *)
Definition assign_move_conv (this r : nat) : M nat :=
  temporary_swap (λ tmp, ctor_move tmp r) this ;;
  mret this.

(** [void reset()] *)
Definition reset (this : nat) : M unit :=
  ptr ← field_read this;
  if decide (ptr ≠ nullptr)
  then temporary_swap ctor_default this
  else mret tt.

(** [void reset(T* r)] *)
Definition reset_raw (this : nat) (r : Z) : M unit :=
  ptr ← field_read this;
  if decide (ptr ≠ r)
  then temporary_swap (λ tmp, ctor_raw tmp r true) this
  else mret tt.

(** [void reset(T* r, bool add_ref)] *)
Definition reset_raw_add_ref (this : nat) (r : Z) (add_ref : bool) : M unit :=
  temporary_swap (λ tmp, ctor_raw tmp r add_ref) this.

(** [T& operator*() const noexcept] *)
Definition operator_star (this : nat) : M reference :=
  ptr ← field_read this;
  cxx_assert (negb (ptr =? nullptr)) ;;
  mret (Ref ptr).

(** [T* operator->() const noexcept] *)
Definition operator_arrow (this : nat) : M Z :=
  ptr ← field_read this;
  cxx_assert (negb (ptr =? nullptr)) ;;
  mret ptr.

(** [T* get() const noexcept] *)
Definition get (this : nat) : M Z := field_read this.

(** [T* detach() noexcept] *)
Definition detach (this : nat) : M Z :=
  old ← field_read this;
  field_write this nullptr ;;
  mret old.

(** [explicit operator bool () const noexcept] *)
Definition operator_bool (this : nat) : M bool :=
  ptr ← field_read this;
  mret (negb (ptr =? nullptr)).

End intrusive_ptr.

(** ** Free operators *)

(** [std::less]: a class of function objects.  An object of it is made
    from no argument, it compares two pointers when it is applied with
    [operator()], and it has no conversion to [bool]. *)
Module std_less.

Inductive t := less.

(** [std::less(args...)]: construction from an argument list. *)
Definition construct (args : list Z) : option t :=
  match args with
  | [] => Some less
  | _ :: _ => None
  end.

(** [less()(x, y)]: the address order. *)
Definition call (_ : t) (x y : Z) : bool := x <? y.

(** What a [return] of a [std::less] object yields in a function
    returning [bool]. *)
Definition to_bool (_ : t) : option bool := None.

End std_less.

(** [operator==(intrusive_ptr<T> const& a, intrusive_ptr<U> const& b)] *)
Definition operator_eq (a b : nat) : M bool :=
  x ← intrusive_ptr.get a; y ← intrusive_ptr.get b; mret (x =? y).

(** [operator!=(intrusive_ptr<T> const& a, intrusive_ptr<U> const& b)] *)
Definition operator_ne (a b : nat) : M bool :=
  x ← intrusive_ptr.get a; y ← intrusive_ptr.get b; mret (negb (x =? y)).

(** [operator==(intrusive_ptr<T> const& a, U* b)] *)
Definition operator_eq_raw (a : nat) (b : Z) : M bool :=
  x ← intrusive_ptr.get a; mret (x =? b).

(** [operator!=(intrusive_ptr<T> const& a, U* b)] *)
Definition operator_ne_raw (a : nat) (b : Z) : M bool :=
  x ← intrusive_ptr.get a; mret (negb (x =? b)).

(** [operator==(T* a, intrusive_ptr<U> const& b)] *)
Definition raw_operator_eq (a : Z) (b : nat) : M bool :=
  y ← intrusive_ptr.get b; mret (a =? y).

(** [operator!=(T* a, intrusive_ptr<U> const& b)] *)
Definition raw_operator_ne (a : Z) (b : nat) : M bool :=
  y ← intrusive_ptr.get b; mret (negb (a =? y)).

(** [operator<(intrusive_ptr<T> const& a, intrusive_ptr<T> const& b)]:
    [return std::less(a.get(), b.get());].  The two pointers are the
    arguments of a construction of [std::less], the object is what is
    returned; [None] stands for an expression that has no value. *)
Definition operator_lt (a b : nat) : M (option bool) :=
  x ← intrusive_ptr.get a;
  y ← intrusive_ptr.get b;
  mret (f ← std_less.construct [x; y]; std_less.to_bool f).

(** [swap(intrusive_ptr<T>& a, intrusive_ptr<T>& b)] *)
Definition free_swap (a b : nat) : M unit := intrusive_ptr.swap a b.

(** ** Programs over the interface *)

(** One statement of a client: objects are named by their address,
    handles by their identity. *)
Inductive op :=
  | OpNew (p : Z)                        (* new O() at address p *)
  | OpNewCopy (p v : Z)                  (* new O( *v ) at address p *)
  | OpAssignObject (p v : Z)             (* *p = *v *)
  | OpUseCount (p : Z)                   (* p->use_count() *)
  | OpAddRef (p : Z)                     (* intrusive_ptr_add_ref(p) *)
  | OpRelease (p : Z)                    (* intrusive_ptr_release(p) *)
  | OpCtorDefault (h : nat)              (* intrusive_ptr<T> h; *)
  | OpCtorRaw (h : nat) (p : Z) (add_ref : bool)   (* h(p, add_ref) *)
  | OpCtorCopy (h r : nat)               (* h(r) *)
  | OpCtorMove (h r : nat)               (* h(std::move(r)) *)
  | OpDtor (h : nat)                     (* end of the lifetime of h *)
  | OpAssignCopy (h r : nat)             (* h = r *)
  | OpAssignCopyConv (h r : nat)         (* h = r, r an intrusive_ptr<Y> *)
  | OpAssignRaw (h : nat) (p : Z)        (* h = p *)
  | OpAssignMove (h r : nat)             (* h = std::move(r) *)
  | OpAssignMoveConv (h r : nat)         (* h = std::move(r), r an intrusive_ptr<Y> *)
  | OpReset (h : nat)                    (* h.reset() *)
  | OpResetRaw (h : nat) (p : Z)         (* h.reset(p) *)
  | OpResetRawAddRef (h : nat) (p : Z) (add_ref : bool)   (* h.reset(p, add_ref) *)
  | OpDetach (h : nat)                   (* h.detach() *)
  | OpSwap (h b : nat)                   (* h.swap(b) *)
  | OpGet (h : nat)                      (* h.get() *)
  | OpBool (h : nat)                     (* bool(h) *)
  | OpStar (h : nat)                     (* *h *)
  | OpArrow (h : nat).                   (* h.operator->() *)

Definition discard {A} (m : M A) : M unit := _ ← m; mret tt.

Definition exec (o : op) : M unit :=
  match o with
  | OpNew p => intrusive_ref_counter.ctor p
  | OpNewCopy p v => intrusive_ref_counter.copy_ctor p v
  | OpAssignObject p v => discard (intrusive_ref_counter.assign p v)
  | OpUseCount p => discard (intrusive_ref_counter.use_count p)
  | OpAddRef p => intrusive_ptr_add_ref p
  | OpRelease p => intrusive_ptr_release p
  | OpCtorDefault h => intrusive_ptr.ctor_default h
  | OpCtorRaw h p b => intrusive_ptr.ctor_raw h p b
  | OpCtorCopy h r => intrusive_ptr.ctor_copy h r
  | OpCtorMove h r => intrusive_ptr.ctor_move h r
  | OpDtor h => intrusive_ptr.dtor h
  | OpAssignCopy h r => discard (intrusive_ptr.assign_copy h r)
  | OpAssignCopyConv h r => discard (intrusive_ptr.assign_copy_conv h r)
  | OpAssignRaw h p => discard (intrusive_ptr.assign_raw h p)
  | OpAssignMove h r => discard (intrusive_ptr.assign_move h r)
  | OpAssignMoveConv h r => discard (intrusive_ptr.assign_move_conv h r)
  | OpReset h => intrusive_ptr.reset h
  | OpResetRaw h p => intrusive_ptr.reset_raw h p
  | OpResetRawAddRef h p b => intrusive_ptr.reset_raw_add_ref h p b
  | OpDetach h => discard (intrusive_ptr.detach h)
  | OpSwap h b => intrusive_ptr.swap h b
  | OpGet h => discard (intrusive_ptr.get h)
  | OpBool h => discard (intrusive_ptr.operator_bool h)
  | OpStar h => discard (intrusive_ptr.operator_star h)
  | OpArrow h => discard (intrusive_ptr.operator_arrow h)
  end.

(** *** References held outside any handle

    The caller of [detach] or of [intrusive_ptr_add_ref] holds a
    reference through a raw pointer.  It gives it back by calling
    [intrusive_ptr_release], or by handing the pointer to a handle
    without acquisition.  A function [g] gives, for each address [o], the
    number of those references to [o]; it is book-keeping about the
    caller, the program never reads it. *)

Definition no_owed : Z → nat := λ _, 0%nat.

Definition owe (p : Z) (g : Z → nat) : Z → nat :=
  λ o, if decide (o = p) then S (g o) else g o.

Definition settle (p : Z) (g : Z → nat) : option (Z → nat) :=
  if decide (0 < g p)%nat
  then Some (λ o, if decide (o = p) then Nat.pred (g o) else g o)
  else None.

(** Adoption without acquisition of a reference that nobody holds is
    outside the contract: [None]. *)
Definition adopt (p : Z) (add_ref : bool) (g : Z → nat) : option (Z → nat) :=
  if add_ref then Some g
  else if decide (p = nullptr) then Some g
  else settle p g.

Definition account (o : op) (s : state) (g : Z → nat) : option (Z → nat) :=
  match o with
  | OpAddRef p => Some (owe p g)
  | OpRelease p => settle p g
  | OpCtorRaw _ p b => adopt p b g
  | OpResetRawAddRef _ p b => adopt p b g
  | OpDetach h =>
      match handles s !! h with
      | Some p => if decide (p = nullptr) then Some g else Some (owe p g)
      | None => Some g
      end
  | _ => Some g
  end.

Definition step (o : op) (sg : state * (Z → nat)) : option (state * (Z → nat)) :=
  g' ← account o sg.1 sg.2;
  match exec o sg.1 with
  | Ok _ s' => Some (s', g')
  | _ => None
  end.

Fixpoint run (ops : list op) (sg : state * (Z → nat)) : option (state * (Z → nat)) :=
  match ops with
  | [] => Some sg
  | o :: ops' => sg' ← step o sg; run ops' sg'
  end.

(** *** Observations on a state *)

(** The number of live handles whose [ptr] is [o]. *)
Definition holders (o : Z) (hs : gmap nat Z) : nat :=
  size (filter (λ kv, kv.2 = o) hs).

Definition is_add_ref (e : event) : bool :=
  match e with EvAddRef _ => true | _ => false end.

(** The number of calls of [intrusive_ptr_add_ref] so far. *)
Definition add_refs (t : list event) : nat := length (filter is_add_ref t).

(** Every [delete] directly follows a release that observed 1, and every
    release that observed 1 is directly followed by the [delete]. *)
Fixpoint justified (t : list event) : bool :=
  match t with
  | [] => true
  | EvAddRef _ :: t' => justified t'
  | EvDelete _ :: _ => false
  | EvRelease p old :: t' =>
      if old =? 1 then
        match t' with
        | EvDelete q :: t'' => (p =? q) && justified t''
        | _ => false
        end
      else justified t'
  end.

(** *** The effect of the free functions on a state *)

(** The state after [intrusive_ptr_add_ref p] found the counter at [c]. *)
Definition after_add_ref (p c : Z) (s : state) : state :=
  State (<[p := wrap (c + 1)]> (heap s)) (handles s) (trace s ++ [EvAddRef p]).

(** The state after [intrusive_ptr_release p] found the counter at [c]. *)
Definition after_release (p c : Z) (s : state) : state :=
  if c =? 1
  then State (delete p (heap s)) (handles s) (trace s ++ [EvRelease p c; EvDelete p])
  else State (<[p := wrap (c - 1)]> (heap s)) (handles s) (trace s ++ [EvRelease p c]).

Definition with_handles (hs : gmap nat Z) (s : state) : state :=
  State (heap s) hs (trace s).

(** Whether [intrusive_ptr(p, add_ref)] acquires. *)
Definition acquires (p : Z) (add_ref : bool) : bool :=
  negb (p =? nullptr) && add_ref.

(** The calls of [intrusive_ptr_add_ref] on [p], and of
    [intrusive_ptr_release] on [p], in a piece of trace. *)
Definition add_refs_of (p : Z) (t : list event) : nat :=
  length (filter (λ e, e = EvAddRef p) t).

Definition is_release_of (p : Z) (e : event) : bool :=
  match e with EvRelease q _ => bool_decide (q = p) | _ => false end.

Definition releases_of (p : Z) (t : list event) : nat :=
  length (filter (λ e, is_release_of p e = true) t).

Definition one_if (b : bool) : nat := if b then 1%nat else 0%nat.

(** The events of a release that found the counter at [c]. *)
Definition release_events (p c : Z) : list event :=
  if c =? 1 then [EvRelease p c; EvDelete p] else [EvRelease p c].

(** *** A reading of [reset(rawPtr)] without the guard

    [h.reset(rawPtr)] releases the previously held reference and adopts
    [rawPtr] with acquisition (one AddRef on [rawPtr] when non-null), for
    whatever pointer [h] holds. *)
Definition reset_raw_always_reacquires (s : state) (h : nat) (r : Z) : Prop :=
  ∀ p, handles s !! h = Some p →
    ∃ s' t,
      intrusive_ptr.reset_raw h r s = Ok tt s' ∧
      handles s' !! h = Some r ∧
      trace s' = trace s ++ t ∧
      releases_of p t = one_if (bool_decide (p ≠ nullptr)) ∧
      add_refs_of r t = one_if (bool_decide (r ≠ nullptr)).

(** A computation only appends to the trace, what it appends is
    [justified], and an object that it takes off the heap has a [delete]
    among the appended events. *)
Definition traced {A} (m : M A) : Prop :=
  ∀ s a s', m s = Ok a s' →
    ∃ t, trace s' = trace s ++ t ∧ justified t = true ∧
         ∀ q, is_Some (heap s !! q) → heap s' !! q = None → EvDelete q ∈ t.

(** *** The counting invariant *)

(** In state [s], with [g o] references to [o] held outside handles:
    the counter of every live object is the number of handles holding
    it plus [g]; handles and outside references point to live objects;
    no counter exceeds the number of [intrusive_ptr_add_ref] calls made;
    there is no object at the null address. *)
Record consistent (g : Z → nat) (s : state) : Prop := Consistent {
  count_exact : ∀ o c, heap s !! o = Some c →
                  c = Z.of_nat (holders o (handles s) + g o);
  handles_live : ∀ h p, handles s !! h = Some p → p ≠ nullptr →
                   is_Some (heap s !! p);
  owed_live : ∀ o, (0 < g o)%nat → is_Some (heap s !! o);
  count_bounded : ∀ o c, heap s !! o = Some c →
                    c ≤ Z.of_nat (add_refs (trace s));
  null_dead : heap s !! nullptr = None
}.

(** The invariant, as long as fewer than 2^64 acquisitions were made. *)
Definition coherent (g : Z → nat) (s : state) : Prop :=
  Z.of_nat (add_refs (trace s)) < size_t_modulus → consistent g s.

Definition preserves {A} (g g' : Z → nat) (m : M A) : Prop :=
  ∀ s a s', coherent g s → m s = Ok a s' → coherent g' s'.

(** *** Two concrete situations *)

(** One object at address 16 with counter 1, held by handle 0. *)
Definition spec_state : state :=
  State {[16 := 1]} {[0%nat := 16]} [EvAddRef 16].

(** The scenario of the specification: a handle [a] on a new object, a
    copy [b], [a.reset()], [b.detach()]. *)
Definition scenario : list op :=
  [OpNew 16; OpCtorRaw 0 16 true; OpCtorCopy 1 0; OpReset 0; OpDetach 1].

(** Two handles sharing the object at 16. *)
Definition shared_state : state :=
  State {[16 := 2]} {[0%nat := 16; 1%nat := 16]} [EvAddRef 16; EvAddRef 16].

(** A new object at 16 that no handle has acquired yet. *)
Definition unacquired_state : state := State {[16 := 0]} ∅ [].

(** Two objects, each held by one handle. *)
Definition two_objects_state : state :=
  State {[16 := 1; 32 := 1]} {[0%nat := 16; 1%nat := 32]}
        [EvAddRef 16; EvAddRef 32].

(** A counter beyond the range of [unsigned int]. *)
Definition wide_counter_state : state := State {[16 := 2 ^ 32 + 5]} ∅ [].

(** * Properties *)

Ltac unfold_m :=
  unfold intrusive_ptr_add_ref, intrusive_ptr_release, atomic_fetch_add,
    atomic_fetch_sub, atomic_load, delete_object, object_alloc, emit,
    cxx_assert, handle_alloc, handle_free, field_read, field_write,
    fresh_handle, discard, mbind, M_bind, mret, M_ret in *.

(** ** The free functions and the base methods, as state transformers *)

Lemma add_ref_ok s p c :
  heap s !! p = Some c →
  intrusive_ptr_add_ref p s = Ok tt (after_add_ref p c s).
Proof. intros H. unfold_m. cbn. now rewrite H. Qed.

Lemma release_ok s p c :
  heap s !! p = Some c →
  intrusive_ptr_release p s = Ok tt (after_release p c s).
Proof.
  intros H. unfold after_release. unfold_m. cbn. rewrite H. cbn.
  destruct (c =? 1) eqn:E; unfold_m; cbn; [|reflexivity].
  now rewrite lookup_insert_eq, delete_insert_eq, <- app_assoc.
Qed.

Lemma add_ref_dead s p : heap s !! p = None → intrusive_ptr_add_ref p s = Undefined.
Proof. intros H. unfold_m. cbn. now rewrite H. Qed.

Lemma release_dead s p : heap s !! p = None → intrusive_ptr_release p s = Undefined.
Proof. intros H. unfold_m. cbn. now rewrite H. Qed.

Lemma ctor_default_ok s h :
  handles s !! h = None →
  intrusive_ptr.ctor_default h s = Ok tt (with_handles (<[h := nullptr]> (handles s)) s).
Proof. intros H. unfold intrusive_ptr.ctor_default. unfold_m. now rewrite H. Qed.

Lemma ctor_raw_plain s h p b :
  handles s !! h = None → acquires p b = false →
  intrusive_ptr.ctor_raw h p b s = Ok tt (with_handles (<[h := p]> (handles s)) s).
Proof.
  intros H Hb. unfold intrusive_ptr.ctor_raw, acquires in *. unfold_m.
  rewrite H, Hb. reflexivity.
Qed.

Lemma ctor_raw_acquire s h p b c :
  handles s !! h = None → acquires p b = true → heap s !! p = Some c →
  intrusive_ptr.ctor_raw h p b s
  = Ok tt (after_add_ref p c (with_handles (<[h := p]> (handles s)) s)).
Proof.
  intros H Hb Hp. unfold intrusive_ptr.ctor_raw, acquires in *.
  unfold mbind, M_bind, handle_alloc. rewrite H, Hb.
  now apply add_ref_ok.
Qed.

Lemma ctor_copy_null s h r :
  handles s !! h = None → handles s !! r = Some nullptr →
  intrusive_ptr.ctor_copy h r s = Ok tt (with_handles (<[h := nullptr]> (handles s)) s).
Proof.
  intros H Hr. unfold intrusive_ptr.ctor_copy. unfold_m. rewrite Hr, H. cbn.
  now rewrite lookup_insert_eq.
Qed.

Lemma ctor_copy_ok s h r p c :
  handles s !! h = None → handles s !! r = Some p → p ≠ nullptr →
  heap s !! p = Some c →
  intrusive_ptr.ctor_copy h r s
  = Ok tt (after_add_ref p c (with_handles (<[h := p]> (handles s)) s)).
Proof.
  intros H Hr Hp Hc. unfold intrusive_ptr.ctor_copy.
  unfold mbind, M_bind, handle_alloc, field_read. rewrite Hr, H. cbn.
  rewrite lookup_insert_eq.
  destruct (p =? nullptr) eqn:E; [apply Z.eqb_eq in E; contradiction|]. cbn.
  now apply add_ref_ok.
Qed.

Lemma ctor_move_ok s h r p :
  handles s !! h = None → handles s !! r = Some p →
  intrusive_ptr.ctor_move h r s
  = Ok tt (with_handles (<[r := nullptr]> (<[h := p]> (handles s))) s).
Proof.
  intros H Hr. unfold intrusive_ptr.ctor_move. unfold_m. rewrite Hr, H. cbn.
  assert (h ≠ r) by congruence.
  now rewrite lookup_insert_ne, Hr.
Qed.

Lemma dtor_null s h :
  handles s !! h = Some nullptr →
  intrusive_ptr.dtor h s = Ok tt (with_handles (delete h (handles s)) s).
Proof. intros H. unfold intrusive_ptr.dtor. unfold_m. now rewrite H; cbn; rewrite H. Qed.

Lemma dtor_ok s h p c :
  handles s !! h = Some p → p ≠ nullptr → heap s !! p = Some c →
  intrusive_ptr.dtor h s
  = Ok tt (with_handles (delete h (handles s)) (after_release p c s)).
Proof.
  intros H Hp Hc. unfold intrusive_ptr.dtor.
  unfold mbind at 1 2. unfold M_bind at 1 2. unfold field_read. rewrite H.
  destruct (p =? nullptr) eqn:E; [apply Z.eqb_eq in E; contradiction|]. cbn.
  rewrite (release_ok _ _ _ Hc). unfold handle_free, after_release.
  destruct (c =? 1); cbn; now rewrite H.
Qed.

Lemma swap_ok s a b x y :
  handles s !! a = Some x → handles s !! b = Some y →
  intrusive_ptr.swap a b s
  = Ok tt (with_handles (<[b := x]> (<[a := y]> (handles s))) s).
Proof.
  intros Ha Hb. unfold intrusive_ptr.swap. unfold_m. rewrite Ha, Hb. cbn.
  rewrite Ha. cbn. destruct (decide (a = b)) as [->|Hne].
  - now rewrite lookup_insert_eq.
  - now rewrite lookup_insert_ne, Hb.
Qed.

Lemma detach_ok s h p :
  handles s !! h = Some p →
  intrusive_ptr.detach h s = Ok p (with_handles (<[h := nullptr]> (handles s)) s).
Proof. intros H. unfold intrusive_ptr.detach. unfold_m. rewrite H. cbn. now rewrite H. Qed.

Lemma add_refs_of_app p t1 t2 :
  add_refs_of p (t1 ++ t2) = (add_refs_of p t1 + add_refs_of p t2)%nat.
Proof. unfold add_refs_of. now rewrite filter_app, length_app. Qed.

Lemma releases_of_app p t1 t2 :
  releases_of p (t1 ++ t2) = (releases_of p t1 + releases_of p t2)%nat.
Proof. unfold releases_of. now rewrite filter_app, length_app. Qed.

Lemma add_refs_of_add_ref p q :
  add_refs_of p [EvAddRef q] = one_if (bool_decide (q = p)).
Proof.
  unfold add_refs_of. rewrite filter_cons, filter_nil.
  case_bool_decide; case_decide; simplify_eq; done.
Qed.

Lemma add_refs_of_release p q c : add_refs_of p [EvRelease q c] = 0%nat.
Proof. unfold add_refs_of. rewrite filter_cons, filter_nil. now case_decide. Qed.

Lemma add_refs_of_delete p q : add_refs_of p [EvDelete q] = 0%nat.
Proof. unfold add_refs_of. rewrite filter_cons, filter_nil. now case_decide. Qed.

(** ** Construction from a raw pointer *)

(** C3. [intrusive_ptr(p, add_ref)] on a free handle stores [p] in the
    handle.  It calls [intrusive_ptr_add_ref] exactly once, on [p], when
    [p] is not null and [add_ref] is true, and then the counter of [p] is
    incremented (in [size_t] arithmetic); otherwise it makes no call and
    the heap, so the count of the pointee if there is one, is unchanged.
    The hypothesis on the heap says that a pointer which is acquired
    points to a live object. *)
Theorem ctor_raw_spec (s : state) (h : nat) (p : Z) (add_ref : bool) :
  handles s !! h = None →
  (p ≠ nullptr → add_ref = true → is_Some (heap s !! p)) →
  ∃ s',
    intrusive_ptr.ctor_raw h p add_ref s = Ok tt s' ∧
    handles s' = <[h := p]> (handles s) ∧
    (p ≠ nullptr ∧ add_ref = true →
       trace s' = trace s ++ [EvAddRef p] ∧
       ∀ c, heap s !! p = Some c → heap s' = <[p := wrap (c + 1)]> (heap s)) ∧
    (¬ (p ≠ nullptr ∧ add_ref = true) →
       trace s' = trace s ∧ heap s' = heap s) ∧
    (∃ t, trace s' = trace s ++ t ∧
          (add_refs_of p t = 1%nat ↔ p ≠ nullptr ∧ add_ref = true) ∧
          (∀ q, q ≠ p → add_refs_of q t = 0%nat) ∧
          (∀ q, releases_of q t = 0%nat)).
Proof.
  intros Hh Hlive.
  destruct (acquires p add_ref) eqn:Hacq.
  - assert (Hp : p ≠ nullptr ∧ add_ref = true).
    { unfold acquires in Hacq. apply andb_true_iff in Hacq as [Hn ->].
      split; [|done]. intros ->. discriminate. }
    destruct Hp as [Hp Hb]. destruct (Hlive Hp Hb) as [c Hc].
    eexists. split; [exact (ctor_raw_acquire _ _ _ _ _ Hh Hacq Hc)|].
    cbn. split; [reflexivity|]. split; [|split].
    + intros _. split; [reflexivity|]. intros c' Hc'. congruence.
    + intros Hn. elim Hn. now split.
    + exists [EvAddRef p]. split; [reflexivity|]. split; [|split].
      * rewrite add_refs_of_add_ref, bool_decide_eq_true_2 by done. now split.
      * intros q Hq. rewrite add_refs_of_add_ref. now rewrite bool_decide_eq_false_2.
      * intros q. reflexivity.
  - assert (Hp : ¬ (p ≠ nullptr ∧ add_ref = true)).
    { intros [Hp ->]. unfold acquires in Hacq. rewrite andb_true_r in Hacq.
      apply negb_false_iff, Z.eqb_eq in Hacq. contradiction. }
    eexists. split; [exact (ctor_raw_plain _ _ _ _ Hh Hacq)|].
    cbn. split; [reflexivity|]. split; [tauto|]. split; [now split|].
    exists []. rewrite app_nil_r. split; [reflexivity|]. split; [|split].
    + split; [discriminate | tauto].
    + intros q _. reflexivity.
    + intros q. reflexivity.
Qed.

Lemma ctor_raw_spec_witness :
  ∃ s', intrusive_ptr.ctor_raw 1 16 true spec_state = Ok tt s' ∧
        trace s' = [EvAddRef 16; EvAddRef 16] ∧
        heap s' !! 16 = Some 2.
Proof.
  destruct (ctor_raw_spec spec_state 1 16 true) as (s' & H & _ & Hacq & _).
  - reflexivity.
  - intros _ _. exists 1. reflexivity.
  - exists s'. split; [exact H|].
    destruct Hacq as [Ht Hh]; [split; [discriminate | reflexivity]|].
    split; [exact Ht|]. rewrite (Hh 1 eq_refl). reflexivity.
Defined.

(** ** Self-assignment *)

(** C5. [h = h] and [h = std::move(h)] change nothing: the state after is
    the state before, so the count of the object is the same, [h] holds
    the same pointer and no call of the free functions was made. *)
Theorem self_assignment_noop (s : state) (h : nat) (p c : Z) :
  handles s !! h = Some p → p ≠ nullptr → heap s !! p = Some c →
  ∃ s1 s2,
    intrusive_ptr.assign_copy h h s = Ok h s1 ∧
    intrusive_ptr.assign_move h h s = Ok h s2 ∧
    handles s1 !! h = Some p ∧ heap s1 !! p = Some c ∧ trace s1 = trace s ∧
    handles s2 !! h = Some p ∧ heap s2 !! p = Some c ∧ trace s2 = trace s ∧
    s1 = s ∧ s2 = s.
Proof.
  intros Hh _ Hc. exists s, s.
  unfold intrusive_ptr.assign_copy, intrusive_ptr.assign_move.
  destruct (decide (h ≠ h)) as [Hne|_]; [now elim Hne|].
  repeat split; assumption.
Qed.

Lemma self_assignment_noop_witness :
  intrusive_ptr.assign_copy 0 0 spec_state = Ok 0%nat spec_state ∧
  intrusive_ptr.assign_move 0 0 spec_state = Ok 0%nat spec_state.
Proof.
  destruct (self_assignment_noop spec_state 0 16 1) as (s1 & s2 & H1 & H2 & H).
  - reflexivity.
  - discriminate.
  - reflexivity.
  - destruct H as (_ & _ & _ & _ & _ & _ & -> & ->). split; assumption.
Defined.

(** ** Dereference *)

(** C6. On a null handle [operator*] and [operator->] fail their
    assertion, and nothing that follows runs: the failure is the outcome
    of every program that continues from the dereference.  On a handle
    holding [p], [operator*] returns the object at [p], [operator->]
    returns [p], and the state (handles and counters) is the one
    before. *)
Theorem dereference_spec (s : state) (h : nat) (p : Z) :
  handles s !! h = Some p →
  (p = nullptr →
     intrusive_ptr.operator_star h s = AssertionViolation ∧
     intrusive_ptr.operator_arrow h s = AssertionViolation ∧
     (∀ k : reference → M unit,
        (intrusive_ptr.operator_star h ≫= k) s = AssertionViolation) ∧
     (∀ k : Z → M unit,
        (intrusive_ptr.operator_arrow h ≫= k) s = AssertionViolation)) ∧
  (p ≠ nullptr →
     intrusive_ptr.operator_star h s = Ok (Ref p) s ∧
     intrusive_ptr.operator_arrow h s = Ok p s).
Proof.
  intros Hh. unfold intrusive_ptr.operator_star, intrusive_ptr.operator_arrow.
  unfold_m. rewrite Hh. split.
  - intros ->. repeat split; reflexivity.
  - intros Hp. destruct (p =? nullptr) eqn:E; [apply Z.eqb_eq in E; contradiction|].
    split; reflexivity.
Qed.

Lemma dereference_spec_witness :
  intrusive_ptr.operator_star 0 spec_state = Ok (Ref 16) spec_state ∧
  intrusive_ptr.operator_arrow 0 spec_state = Ok 16 spec_state ∧
  intrusive_ptr.operator_star 0 (State ∅ {[0%nat := nullptr]} []) = AssertionViolation.
Proof.
  destruct (dereference_spec spec_state 0 16) as [_ H]; [reflexivity|].
  destruct (dereference_spec (State ∅ {[0%nat := nullptr]} []) 0 nullptr) as [H0 _];
    [reflexivity|].
  destruct H as [H1 H2]; [discriminate|].
  destruct H0 as [H3 _]; [reflexivity|].
  repeat split; assumption.
Defined.

(** ** Detach and adopt *)

(** C7. [h.detach()] on a handle holding [o], whose count is [n], returns
    [o] and leaves [h] null; no free function is called and the heap is
    the same.  Constructing a handle from the returned pointer without
    acquisition then gives a handle holding [o], still without a call,
    and the count of [o] is [n]. *)
Theorem detach_adopt_roundtrip (s : state) (h h2 : nat) (o n : Z) :
  handles s !! h = Some o → heap s !! o = Some n →
  handles s !! h2 = None →
  ∃ s1 s2,
    intrusive_ptr.detach h s = Ok o s1 ∧
    handles s1 = <[h := nullptr]> (handles s) ∧
    heap s1 = heap s ∧ trace s1 = trace s ∧
    intrusive_ptr.ctor_raw h2 o false s1 = Ok tt s2 ∧
    handles s2 !! h2 = Some o ∧ handles s2 !! h = Some nullptr ∧
    heap s2 = heap s ∧ heap s2 !! o = Some n ∧ trace s2 = trace s.
Proof.
  intros Hh Ho Hh2. assert (Hne : h2 ≠ h) by congruence.
  eexists _, _. split; [exact (detach_ok _ _ _ Hh)|].
  split; [reflexivity|]. split; [reflexivity|]. split; [reflexivity|].
  split.
  - apply ctor_raw_plain.
    + cbn. now rewrite lookup_insert_ne.
    + unfold acquires. apply andb_false_r.
  - cbn. rewrite lookup_insert_eq, lookup_insert_ne, lookup_insert_eq by done.
    repeat split; done.
Qed.

Lemma detach_adopt_roundtrip_witness :
  ∃ s1 s2,
    intrusive_ptr.detach 0 spec_state = Ok 16 s1 ∧
    intrusive_ptr.ctor_raw 1 16 false s1 = Ok tt s2 ∧
    heap s2 !! 16 = Some 1 ∧ handles s2 !! 1%nat = Some 16.
Proof.
  destruct (detach_adopt_roundtrip spec_state 0 1 16 1)
    as (s1 & s2 & H1 & _ & _ & _ & H2 & H3 & _ & _ & H4 & _).
  - reflexivity.
  - reflexivity.
  - reflexivity.
  - exists s1, s2. repeat split; assumption.
Defined.

(** ** Temporaries *)

Lemma trace_after_release p c s :
  trace (after_release p c s) = trace s ++ release_events p c.
Proof. unfold after_release, release_events. now destruct (c =? 1). Qed.

Lemma handles_after_release p c s : handles (after_release p c s) = handles s.
Proof. unfold after_release. now destruct (c =? 1). Qed.

Lemma fresh_handle_free (hs : gmap nat Z) : hs !! fresh (dom hs) = None.
Proof. apply not_elem_of_dom, is_fresh. Qed.

Lemma temporary_gone (m : gmap nat Z) tmp this p q :
  m !! tmp = None → tmp ≠ this →
  delete tmp (<[this := q]> (<[tmp := p]> (<[tmp := q]> m))) = <[this := q]> m.
Proof.
  intros Hm Hne.
  rewrite delete_insert_ne, insert_insert_eq, delete_insert_eq by done.
  now rewrite (delete_id _ _ Hm).
Qed.

(** What [intrusive_ptr(...).swap( *this )] does once the temporary is
    constructed holding [q]: [*this] holds [q], and the pointer [p] that
    [*this] held is released by the destructor of the temporary. *)
Lemma temporary_swap_ok construct this s s1 (m : gmap nat Z) p q :
  construct (fresh (dom (handles s))) s = Ok tt s1 →
  handles s1 = <[fresh (dom (handles s)) := q]> m →
  m !! fresh (dom (handles s)) = None →
  m !! this = Some p →
  intrusive_ptr.temporary_swap construct this s
  = if decide (p = nullptr)
    then Ok tt (with_handles (<[this := q]> m) s1)
    else match heap s1 !! p with
         | Some c => Ok tt (with_handles (<[this := q]> m) (after_release p c s1))
         | None => Undefined
         end.
Proof.
  intros Hc Hs1 Hm Hthis. set (tmp := fresh (dom (handles s))) in *.
  assert (Hne : tmp ≠ this) by congruence.
  unfold intrusive_ptr.temporary_swap. unfold mbind at 1 2 3. unfold M_bind at 1 2 3.
  unfold fresh_handle. fold tmp. rewrite Hc.
  rewrite (swap_ok s1 tmp this q p).
  2: { rewrite Hs1. apply lookup_insert_eq. }
  2: { rewrite Hs1. now rewrite lookup_insert_ne. }
  rewrite Hs1. destruct (decide (p = nullptr)) as [->|Hp].
  - rewrite dtor_null.
    2: { cbn. rewrite lookup_insert_ne, lookup_insert_eq by done. reflexivity. }
    cbn. now rewrite temporary_gone.
  - destruct (heap s1 !! p) as [c|] eqn:Hheap.
    + rewrite (dtor_ok _ tmp p c).
      2: { cbn. rewrite lookup_insert_ne, lookup_insert_eq by done. reflexivity. }
      2: done.
      2: { cbn. exact Hheap. }
      unfold with_handles, after_release. cbn.
      rewrite temporary_gone by done. now destruct (c =? 1).
    + unfold intrusive_ptr.dtor. unfold mbind at 1 2. unfold M_bind at 1 2.
      unfold field_read. cbn.
      rewrite lookup_insert_ne, lookup_insert_eq by done.
      destruct (p =? nullptr) eqn:E; [apply Z.eqb_eq in E; contradiction|]. cbn.
      rewrite release_dead; [reflexivity | exact Hheap].
Qed.

(** ** [reset] and assignment from the pointer already held *)

(** C10. When [h] holds [p], [h.reset(p)] and [h = p] return with the
    state they started from: no call of [intrusive_ptr_add_ref] or of
    [intrusive_ptr_release] is recorded, the counter of the pointee has
    the value it had and no object is deleted, whatever that counter is
    (1 included). *)
Theorem reset_same_pointer_noop (s : state) (h : nat) (p : Z) :
  handles s !! h = Some p →
  intrusive_ptr.reset_raw h p s = Ok tt s ∧
  intrusive_ptr.assign_raw h p s = Ok h s.
Proof.
  intros Hh. unfold intrusive_ptr.reset_raw, intrusive_ptr.assign_raw.
  unfold mbind, M_bind, field_read. rewrite Hh.
  destruct (decide (p ≠ p)) as [Hne|_]; [now elim Hne|]. split; reflexivity.
Qed.

Lemma reset_same_pointer_noop_witness :
  heap spec_state !! 16 = Some 1 ∧
  intrusive_ptr.reset_raw 0 16 spec_state = Ok tt spec_state ∧
  intrusive_ptr.assign_raw 0 16 spec_state = Ok 0%nat spec_state.
Proof.
  split; [reflexivity|].
  apply (reset_same_pointer_noop spec_state 0 16). reflexivity.
Defined.

(** ** The embedded counter *)

(** X20. The constructors of [intrusive_ref_counter] start the counter
    at 0: a default-constructed and a copy-constructed object have count 0,
    whatever the counter [cv] of the source [v] of the copy, and the
    source keeps its counter. *)
Theorem counter_starts_at_zero (s : state) (this v cv : Z) :
  this ≠ nullptr → heap s !! this = None → heap s !! v = Some cv →
  (∃ s1, intrusive_ref_counter.ctor this s = Ok tt s1 ∧
         heap s1 !! this = Some 0 ∧
         intrusive_ref_counter.use_count this s1 = Ok 0 s1) ∧
  (∃ s2, intrusive_ref_counter.copy_ctor this v s = Ok tt s2 ∧
         heap s2 !! this = Some 0 ∧ heap s2 !! v = Some cv ∧
         intrusive_ref_counter.use_count this s2 = Ok 0 s2).
Proof.
  intros Hn Hfree Hv. assert (Hne : this ≠ v) by congruence.
  unfold intrusive_ref_counter.ctor, intrusive_ref_counter.copy_ctor,
    intrusive_ref_counter.use_count.
  unfold_m. destruct (decide (this = nullptr)) as [|_]; [contradiction|].
  rewrite Hfree. split.
  - eexists. split; [reflexivity|]. cbn. rewrite lookup_insert_eq. now split.
  - eexists. split; [reflexivity|]. cbn.
    rewrite lookup_insert_eq, lookup_insert_ne by done. now repeat split.
Qed.

Lemma counter_starts_at_zero_witness :
  ∃ s2, intrusive_ref_counter.copy_ctor 32 16 spec_state = Ok tt s2 ∧
        heap s2 !! 32 = Some 0 ∧ heap s2 !! 16 = Some 1.
Proof.
  destruct (counter_starts_at_zero spec_state 32 16 1) as (_ & s2 & Hc & H32 & H16 & _).
  - discriminate.
  - reflexivity.
  - reflexivity.
  - exists s2. now repeat split.
Defined.

(** Copy assignment of the counter never returns: the end of the body
    is reached in every state. *)
Lemma counter_assignment_undefined (s : state) (this v : Z) :
  intrusive_ref_counter.assign this v s = Undefined.
Proof. reflexivity. Qed.

(** C8, at the copy assignment of the object at 32, whose count is 1, to
    the object at 16, whose count is 1.  The claim has the target keep
    its count of 1.  The operator writes no field, but it has no
    [return] statement: the call has undefined behaviour and there is no
    state after it in which the target has a count. *)
Theorem counter_assignment_flows_off_the_end :
  heap two_objects_state !! 16 = Some 1 ∧
  heap two_objects_state !! 32 = Some 1 ∧
  intrusive_ref_counter.assign 16 32 two_objects_state = Undefined ∧
  ∀ k : reference → M unit,
    (intrusive_ref_counter.assign 16 32 ≫= k) two_objects_state = Undefined.
Proof. repeat split; reflexivity. Qed.

(** ** Counting the calls in a piece of trace *)

Lemma releases_of_add_ref q r : releases_of q [EvAddRef r] = 0%nat.
Proof. reflexivity. Qed.

Lemma releases_of_release_events q p c :
  releases_of q (release_events p c) = one_if (bool_decide (p = q)).
Proof.
  unfold releases_of, release_events.
  destruct (c =? 1); rewrite !filter_cons, filter_nil; cbn;
    repeat case_bool_decide; repeat case_decide; simplify_eq; done.
Qed.

Lemma add_refs_of_release_events q p c : add_refs_of q (release_events p c) = 0%nat.
Proof.
  unfold add_refs_of, release_events.
  destruct (c =? 1); rewrite !filter_cons, filter_nil; repeat case_decide; done.
Qed.

Lemma acquires_true p b : acquires p b = true ↔ p ≠ nullptr ∧ b = true.
Proof.
  unfold acquires. rewrite andb_true_iff, negb_true_iff, Z.eqb_neq. reflexivity.
Qed.

(** The temporary's part of [intrusive_ptr(...).swap( *this )]: after a
    construction that left the temporary holding [q], [*this] holds [q]
    and the only further call is one release of the pointer [p] that
    [*this] held, when it is not null. *)
Lemma temporary_swap_spec construct h s s1 p q t1 :
  handles s !! h = Some p →
  construct (fresh (dom (handles s))) s = Ok tt s1 →
  handles s1 = <[fresh (dom (handles s)) := q]> (handles s) →
  trace s1 = trace s ++ t1 →
  (p ≠ nullptr → is_Some (heap s1 !! p)) →
  ∃ s' t2,
    intrusive_ptr.temporary_swap construct h s = Ok tt s' ∧
    handles s' = <[h := q]> (handles s) ∧
    trace s' = trace s ++ t1 ++ t2 ∧
    (∀ o, add_refs_of o t2 = 0%nat) ∧
    (∀ o, releases_of o t2 = one_if (bool_decide (p ≠ nullptr ∧ o = p))).
Proof.
  intros Hh Hc Hs1 Ht1 Hlive.
  rewrite (temporary_swap_ok construct h s s1 (handles s) p q Hc Hs1
             (fresh_handle_free _) Hh).
  destruct (decide (p = nullptr)) as [->|Hp].
  - eexists _, []. split; [reflexivity|]. cbn. rewrite Ht1, app_nil_r.
    repeat split; try done.
    all: intros o; rewrite bool_decide_eq_false_2; [done|tauto].
  - destruct (Hlive Hp) as [c Hc']. rewrite Hc'.
    eexists _, (release_events p c). split; [reflexivity|]. cbn.
    rewrite trace_after_release, Ht1, <- app_assoc.
    split; [done|]. split; [done|]. split.
    + intros o. apply add_refs_of_release_events.
    + intros o. rewrite releases_of_release_events.
      f_equal. apply bool_decide_ext. split; [intros <-; tauto | intros [_ ->]; reflexivity].
Qed.

(** [intrusive_ptr(r, add_ref).swap( *this )] *)
Lemma raw_temporary_swap_spec s h p r b :
  handles s !! h = Some p →
  (p ≠ nullptr → is_Some (heap s !! p)) →
  (acquires r b = true → is_Some (heap s !! r)) →
  ∃ s' t,
    intrusive_ptr.temporary_swap (λ tmp, intrusive_ptr.ctor_raw tmp r b) h s = Ok tt s' ∧
    handles s' = <[h := r]> (handles s) ∧
    trace s' = trace s ++ t ∧
    (∀ o, add_refs_of o t = one_if (acquires r b && bool_decide (o = r))) ∧
    (∀ o, releases_of o t = one_if (bool_decide (p ≠ nullptr ∧ o = p))).
Proof.
  intros Hh Hp Hr. pose proof (fresh_handle_free (handles s)) as Hfresh.
  destruct (acquires r b) eqn:Hacq.
  - destruct (Hr eq_refl) as [cr Hcr].
    edestruct (temporary_swap_spec (λ tmp, intrusive_ptr.ctor_raw tmp r b) h s)
      as (s' & t2 & Hrun & Hhs & Ht & Hadd & Hrel).
    + exact Hh.
    + exact (ctor_raw_acquire _ _ _ _ _ Hfresh Hacq Hcr).
    + reflexivity.
    + reflexivity.
    + intros Hpn. cbn. destruct (decide (r = p)) as [->|Hne].
      * rewrite lookup_insert_eq. eauto.
      * rewrite lookup_insert_ne by done. auto.
    + exists s', ([EvAddRef r] ++ t2). split; [exact Hrun|]. split; [exact Hhs|].
      split; [exact Ht|]. split.
      * intros o. rewrite add_refs_of_app, Hadd, add_refs_of_add_ref, Nat.add_0_r.
        cbn. f_equal. apply bool_decide_ext. split; congruence.
      * intros o. rewrite releases_of_app, Hrel. reflexivity.
  - edestruct (temporary_swap_spec (λ tmp, intrusive_ptr.ctor_raw tmp r b) h s)
      as (s' & t2 & Hrun & Hhs & Ht & Hadd & Hrel).
    + exact Hh.
    + exact (ctor_raw_plain _ _ _ _ Hfresh Hacq).
    + reflexivity.
    + cbn. symmetry. apply app_nil_r.
    + exact Hp.
    + exists s', t2. rewrite app_nil_l in Ht. repeat split; try done.
Qed.

(** ** [reset] *)

(** C4, as amended.  For a handle [h] holding [p] (a live object when
    not null) and a pointer [r] (to a live object when not null):
    - [h.reset()] leaves [h] null, releasing [p] once when it is not
      null, and acquires nothing;
    - [h.reset(r)] with [r] different from [p] leaves [h] holding [r],
      with one [intrusive_ptr_add_ref] on [r] when it is not null and one
      release of [p] when it is not null; with [r] equal to [p] it
      returns with the state unchanged, no call being made;
    - [h.reset(r, add_ref)] leaves [h] holding [r], with one
      [intrusive_ptr_add_ref] on [r] exactly when [r] is not null and
      [add_ref] is true, and one release of [p] when it is not null. *)
Theorem reset_spec (s : state) (h : nat) (p r : Z) (add_ref : bool) :
  handles s !! h = Some p →
  (p ≠ nullptr → is_Some (heap s !! p)) →
  (r ≠ nullptr → is_Some (heap s !! r)) →
  (∃ s' t,
     intrusive_ptr.reset h s = Ok tt s' ∧
     handles s' = <[h := nullptr]> (handles s) ∧
     trace s' = trace s ++ t ∧
     (∀ o, add_refs_of o t = 0%nat) ∧
     (∀ o, releases_of o t = one_if (bool_decide (p ≠ nullptr ∧ o = p)))) ∧
  (r ≠ p →
   ∃ s' t,
     intrusive_ptr.reset_raw h r s = Ok tt s' ∧
     handles s' = <[h := r]> (handles s) ∧
     trace s' = trace s ++ t ∧
     (∀ o, add_refs_of o t = one_if (bool_decide (r ≠ nullptr ∧ o = r))) ∧
     (∀ o, releases_of o t = one_if (bool_decide (p ≠ nullptr ∧ o = p)))) ∧
  (r = p → intrusive_ptr.reset_raw h r s = Ok tt s) ∧
  (∃ s' t,
     intrusive_ptr.reset_raw_add_ref h r add_ref s = Ok tt s' ∧
     handles s' = <[h := r]> (handles s) ∧
     trace s' = trace s ++ t ∧
     (∀ o, add_refs_of o t
           = one_if (bool_decide (r ≠ nullptr ∧ add_ref = true ∧ o = r))) ∧
     (∀ o, releases_of o t = one_if (bool_decide (p ≠ nullptr ∧ o = p)))).
Proof.
  intros Hh Hp Hr. split; [|split; [|split]].
  - unfold intrusive_ptr.reset. unfold mbind, M_bind, field_read. rewrite Hh.
    destruct (decide (p ≠ nullptr)) as [Hpn|Hpn].
    + edestruct (temporary_swap_spec intrusive_ptr.ctor_default h s)
        as (s' & t2 & Hrun & Hhs & Ht & Hadd & Hrel).
      * exact Hh.
      * exact (ctor_default_ok _ _ (fresh_handle_free _)).
      * reflexivity.
      * cbn. symmetry. apply app_nil_r.
      * exact Hp.
      * exists s', t2. rewrite app_nil_l in Ht. done.
    + assert (p = nullptr) as -> by (destruct (decide (p = nullptr)); tauto).
      exists s, []. rewrite app_nil_r, (insert_id _ _ _ Hh).
      repeat split; try done.
      all: intros o; rewrite bool_decide_eq_false_2; [done|tauto].
  - intros Hne. unfold intrusive_ptr.reset_raw. unfold mbind, M_bind, field_read.
    rewrite Hh. destruct (decide (p ≠ r)) as [_|Heq]; [|elim Heq; congruence].
    destruct (raw_temporary_swap_spec s h p r true Hh Hp)
      as (s' & t & Hrun & Hhs & Ht & Hadd & Hrel).
    { intros Ha. apply acquires_true in Ha as [Hrn _]. auto. }
    exists s', t. split; [done|]. split; [done|]. split; [done|]. split; [|done].
    intros o. rewrite Hadd. f_equal. unfold acquires. rewrite andb_true_r.
    destruct (r =? nullptr) eqn:E; cbn.
    + apply Z.eqb_eq in E. symmetry. apply bool_decide_eq_false_2. tauto.
    + apply Z.eqb_neq in E. apply bool_decide_ext. tauto.
  - intros ->. unfold intrusive_ptr.reset_raw. unfold mbind, M_bind, field_read.
    rewrite Hh. destruct (decide (p ≠ p)) as [Hne|_]; [now elim Hne | reflexivity].
  - unfold intrusive_ptr.reset_raw_add_ref.
    destruct (raw_temporary_swap_spec s h p r add_ref Hh Hp)
      as (s' & t & Hrun & Hhs & Ht & Hadd & Hrel).
    { intros Ha. apply acquires_true in Ha as [Hrn _]. auto. }
    exists s', t. split; [done|]. split; [done|]. split; [done|]. split; [|done].
    intros o. rewrite Hadd. f_equal.
    destruct (acquires r add_ref) eqn:Hacq; cbn.
    + apply acquires_true in Hacq. apply bool_decide_ext. tauto.
    + symmetry. apply bool_decide_eq_false_2. intros (H1 & H2 & _).
      assert (acquires r add_ref = true) by (apply acquires_true; tauto). congruence.
Qed.

Lemma reset_spec_witness :
  ∃ s', intrusive_ptr.reset 0 spec_state = Ok tt s' ∧
        handles s' = <[0%nat := nullptr]> (handles spec_state).
Proof.
  destruct (reset_spec spec_state 0 16 16 true) as [(s' & t & H & Hh & _) _].
  - reflexivity.
  - intros _. exists 1. reflexivity.
  - intros _. exists 1. reflexivity.
  - exists s'. split; assumption.
Defined.

(** C4, as stated, fails: a handle that holds the only reference to the
    object at 16 is reset to 16; the guard [ptr != r] skips the body, so
    there is neither a release of the held reference nor an
    [intrusive_ptr_add_ref] on the pointer. *)
Lemma reset_raw_same_pointer_counterexample :
  ¬ reset_raw_always_reacquires spec_state 0 16.
Proof.
  intros H. destruct (H 16 eq_refl) as (s' & t & Hrun & _ & Ht & Hrel & _).
  assert (Hs : intrusive_ptr.reset_raw 0 16 spec_state = Ok tt spec_state)
    by reflexivity.
  rewrite Hs in Hrun. injection Hrun as <-.
  rewrite <- (app_nil_r (trace spec_state)) in Ht at 1.
  apply app_inv_head in Ht. subst t. discriminate Hrel.
Qed.

(** ** Comparisons *)

Lemma Z_eqb_decide (x y : Z) : (x =? y) = bool_decide (x = y).
Proof.
  destruct (x =? y) eqn:E; symmetry.
  - apply bool_decide_eq_true_2. now apply Z.eqb_eq.
  - apply bool_decide_eq_false_2. now apply Z.eqb_neq.
Qed.

Lemma Z_neqb_decide (x y : Z) : negb (x =? y) = bool_decide (x ≠ y).
Proof.
  rewrite Z_eqb_decide. repeat case_bool_decide; done.
Qed.

(** [==] and [!=], between handles and between a handle and a raw
    pointer, compare the pointers that [get] returns, null or not. *)
Lemma equality_operators_spec (s : state) (a b : nat) (x y : Z) :
  handles s !! a = Some x → handles s !! b = Some y →
  intrusive_ptr.get a s = Ok x s ∧ intrusive_ptr.get b s = Ok y s ∧
  operator_eq a b s = Ok (bool_decide (x = y)) s ∧
  operator_ne a b s = Ok (bool_decide (x ≠ y)) s ∧
  ∀ r, operator_eq_raw a r s = Ok (bool_decide (x = r)) s ∧
       operator_ne_raw a r s = Ok (bool_decide (x ≠ r)) s ∧
       raw_operator_eq r b s = Ok (bool_decide (r = y)) s ∧
       raw_operator_ne r b s = Ok (bool_decide (r ≠ y)) s.
Proof.
  intros Ha Hb.
  unfold operator_eq, operator_ne, operator_eq_raw, operator_ne_raw,
    raw_operator_eq, raw_operator_ne, intrusive_ptr.get.
  unfold_m. rewrite Ha, Hb.
  repeat split; rewrite ?Z_neqb_decide, ?Z_eqb_decide; reflexivity.
Qed.

(** [<] between two handles never yields a truth value: the pointers are
    passed to a construction of [std::less], not to its [operator()]. *)
Lemma operator_lt_spec (s : state) (a b : nat) (x y : Z) :
  handles s !! a = Some x → handles s !! b = Some y →
  operator_lt a b s = Ok None s.
Proof.
  intros Ha Hb. unfold operator_lt, intrusive_ptr.get. unfold_m.
  now rewrite Ha, Hb.
Qed.

(** C9, at two handles of one element type holding 16 and 32.  [==] and
    [!=] agree with the comparison of the results of [get]; the address
    16 is below the address 32, but [a < b] has no value, where the claim
    has true. *)
Theorem operator_lt_has_no_value :
  let s := State ∅ {[0%nat := 16; 1%nat := 32]} [] in
  intrusive_ptr.get 0 s = Ok 16 s ∧
  intrusive_ptr.get 1 s = Ok 32 s ∧
  operator_eq 0 1 s = Ok false s ∧
  operator_ne 0 1 s = Ok true s ∧
  std_less.call std_less.less 16 32 = true ∧
  operator_lt 0 1 s = Ok None s.
Proof. cbv zeta. repeat split; reflexivity. Qed.

(** ** Traces *)

Lemma justified_app_le n : ∀ t1 t2,
  (length t1 ≤ n)%nat →
  justified t1 = true → justified t2 = true → justified (t1 ++ t2) = true.
Proof.
  induction n as [|n IH]; intros t1 t2 Hlen H1 H2.
  - destruct t1; [exact H2 | cbn in Hlen; lia].
  - destruct t1 as [|e t1]; [exact H2|]. cbn in Hlen.
    destruct e as [p|p old|p]; cbn in H1 |- *.
    + apply IH; [lia | done | done].
    + destruct (old =? 1).
      * destruct t1 as [|[q|q old'|q] t1]; try discriminate. cbn in Hlen |- *.
        apply andb_true_iff in H1 as [Hpq H1]. rewrite Hpq. cbn.
        apply IH; [lia | done | done].
      * apply IH; [lia | done | done].
    + discriminate.
Qed.

Lemma justified_app t1 t2 :
  justified t1 = true → justified t2 = true → justified (t1 ++ t2) = true.
Proof. apply (justified_app_le (length t1)). lia. Qed.

Lemma justified_release_events p c : justified (release_events p c) = true.
Proof.
  unfold release_events. destruct (c =? 1) eqn:E; cbn; rewrite E; [|reflexivity].
  now rewrite Z.eqb_refl.
Qed.

Section traced_rules.
Context {A B : Type}.

Lemma traced_ret (a : A) : traced (mret a : M A).
Proof.
  intros s a' s' H. injection H as <- <-. exists []. rewrite app_nil_r.
  split; [done|]. split; [done|]. intros q [c Hq] Hn. congruence.
Qed.

Lemma traced_bind (m : M A) (f : A → M B) :
  traced m → (∀ a, traced (f a)) → traced (m ≫= f).
Proof.
  intros Hm Hf s b s'' H. unfold mbind, M_bind in H.
  destruct (m s) as [a s'| |] eqn:Em; try discriminate.
  destruct (Hm _ _ _ Em) as (t1 & Ht1 & Hj1 & Hd1).
  destruct (Hf a _ _ _ H) as (t2 & Ht2 & Hj2 & Hd2).
  exists (t1 ++ t2). split; [|split].
  - now rewrite Ht2, Ht1, app_assoc.
  - now apply justified_app.
  - intros q Hq Hn. apply elem_of_app.
    destruct (heap s' !! q) as [c|] eqn:Eq.
    + right. apply Hd2; [eauto | exact Hn].
    + left. now apply Hd1.
Qed.

(** A computation that leaves the heap and the trace as they are. *)
Lemma traced_frame (m : M A) :
  (∀ s a s', m s = Ok a s' → heap s' = heap s ∧ trace s' = trace s) → traced m.
Proof.
  intros Hm s a s' H. destruct (Hm _ _ _ H) as [Hh Ht].
  exists []. rewrite app_nil_r, Hh. split; [done|]. split; [done|].
  intros q [c Hq] Hn. congruence.
Qed.
End traced_rules.

Lemma traced_flows_off_the_end {A} : traced (flows_off_the_end : M A).
Proof. intros s a s' H. discriminate H. Qed.

Lemma traced_field_read h : traced (field_read h).
Proof.
  apply traced_frame. intros s a s' H. unfold field_read in H.
  destruct (handles s !! h); simplify_eq. done.
Qed.

Lemma traced_field_write h v : traced (field_write h v).
Proof.
  apply traced_frame. intros s a s' H. unfold field_write in H.
  destruct (handles s !! h); simplify_eq. done.
Qed.

Lemma traced_handle_alloc h v : traced (handle_alloc h v).
Proof.
  apply traced_frame. intros s a s' H. unfold handle_alloc in H.
  destruct (handles s !! h); simplify_eq. done.
Qed.

Lemma traced_handle_free h : traced (handle_free h).
Proof.
  apply traced_frame. intros s a s' H. unfold handle_free in H.
  destruct (handles s !! h); simplify_eq. done.
Qed.

Lemma traced_fresh_handle : traced fresh_handle.
Proof. apply traced_frame. intros s a s' H. unfold fresh_handle in H. now simplify_eq. Qed.

Lemma traced_cxx_assert b : traced (cxx_assert b).
Proof.
  apply traced_frame. intros s a s' H. unfold cxx_assert in H.
  destruct b; simplify_eq. done.
Qed.

Lemma traced_atomic_load p : traced (atomic_load p).
Proof.
  apply traced_frame. intros s a s' H. unfold atomic_load in H.
  destruct (heap s !! p); simplify_eq. done.
Qed.

Lemma traced_object_alloc p c : traced (object_alloc p c).
Proof.
  intros s a s' H. unfold object_alloc in H.
  destruct (decide (p = nullptr)); [discriminate|].
  destruct (heap s !! p) eqn:E; simplify_eq. cbn.
  exists []. rewrite app_nil_r. split; [done|]. split; [done|].
  intros q [c' Hq] Hn. destruct (decide (p = q)) as [->|Hne].
  - rewrite lookup_insert_eq in Hn. discriminate.
  - rewrite lookup_insert_ne in Hn by done. congruence.
Qed.

Lemma traced_add_ref p : traced (intrusive_ptr_add_ref p).
Proof.
  intros s a s' H. destruct (heap s !! p) as [c|] eqn:E.
  - rewrite (add_ref_ok _ _ _ E) in H. simplify_eq. cbn.
    exists [EvAddRef p]. split; [done|]. split; [done|].
    intros q [c' Hq] Hn. destruct (decide (p = q)) as [->|Hne].
    + rewrite lookup_insert_eq in Hn. discriminate.
    + rewrite lookup_insert_ne in Hn by done. congruence.
  - rewrite (add_ref_dead _ _ E) in H. discriminate.
Qed.

Lemma traced_release p : traced (intrusive_ptr_release p).
Proof.
  intros s a s' H. destruct (heap s !! p) as [c|] eqn:E.
  - rewrite (release_ok _ _ _ E) in H. simplify_eq.
    exists (release_events p c). split; [apply trace_after_release|].
    split; [apply justified_release_events|].
    intros q [c' Hq] Hn. unfold after_release, release_events in *.
    destruct (c =? 1); cbn in *.
    + destruct (decide (p = q)) as [->|Hne].
      * apply elem_of_cons. right. apply elem_of_cons. now left.
      * rewrite lookup_delete_ne in Hn by done. congruence.
    + destruct (decide (p = q)) as [->|Hne].
      * rewrite lookup_insert_eq in Hn. discriminate.
      * rewrite lookup_insert_ne in Hn by done. congruence.
  - rewrite (release_dead _ _ E) in H. discriminate.
Qed.

Ltac traced_step :=
  first
    [ apply traced_ret | apply traced_flows_off_the_end
    | apply traced_field_read | apply traced_field_write
    | apply traced_handle_alloc | apply traced_handle_free
    | apply traced_fresh_handle | apply traced_cxx_assert
    | apply traced_atomic_load | apply traced_object_alloc
    | apply traced_add_ref | apply traced_release
    | apply traced_bind; [|intros ?]
    | match goal with |- traced (if ?b then _ else _) => destruct b end ].

Ltac traced_auto :=
  unfold intrusive_ref_counter.ctor, intrusive_ref_counter.copy_ctor,
    intrusive_ref_counter.assign, intrusive_ref_counter.use_count,
    intrusive_ptr.assign_copy, intrusive_ptr.assign_copy_conv,
    intrusive_ptr.assign_raw, intrusive_ptr.assign_move,
    intrusive_ptr.assign_move_conv, intrusive_ptr.reset, intrusive_ptr.reset_raw,
    intrusive_ptr.reset_raw_add_ref, intrusive_ptr.temporary_swap,
    intrusive_ptr.ctor_default, intrusive_ptr.ctor_raw, intrusive_ptr.ctor_copy,
    intrusive_ptr.ctor_move, intrusive_ptr.dtor, intrusive_ptr.swap,
    intrusive_ptr.detach, intrusive_ptr.get, intrusive_ptr.operator_bool,
    intrusive_ptr.operator_star, intrusive_ptr.operator_arrow, discard;
  repeat traced_step.

Lemma traced_exec o : traced (exec o).
Proof. destruct o; cbn [exec]; traced_auto. Qed.

(** ** Release *)

(** C2. On a pointer [p] to a live object whose counter is [c]:
    - the [fetch_sub] of [intrusive_ptr_release p] observes [c] and
      leaves the counter at [c - 1] in [size_t] arithmetic, which is
      [c - 1] for every [c] from 1 on;
    - when [c] is 1 the object is deleted, and when [c] is not 1 the only
      effects are the new counter and the record of the call;
    - no handle is changed;
    - this is the only way an object leaves the heap: whatever operation
      of the interface runs, an object that was live before and is not
      after has a [delete] in the appended trace, and every [delete] in
      it directly follows a release that observed 1. *)
Theorem release_spec (s : state) (p c : Z) :
  heap s !! p = Some c →
  (∃ s1, atomic_fetch_sub p 1 s = Ok c s1 ∧
         heap s1 !! p = Some (wrap (c - 1)) ∧
         (1 ≤ c < size_t_modulus → heap s1 !! p = Some (c - 1))) ∧
  (∃ s', intrusive_ptr_release p s = Ok tt s' ∧
         handles s' = handles s ∧
         (c = 1 → heap s' = delete p (heap s) ∧
                  trace s' = trace s ++ [EvRelease p 1; EvDelete p]) ∧
         (c ≠ 1 → heap s' = <[p := wrap (c - 1)]> (heap s) ∧
                  trace s' = trace s ++ [EvRelease p c])) ∧
  (∀ o s0 s1, exec o s0 = Ok tt s1 →
     ∃ t, trace s1 = trace s0 ++ t ∧ justified t = true ∧
          ∀ q, is_Some (heap s0 !! q) → heap s1 !! q = None → EvDelete q ∈ t).
Proof.
  intros Hp. split; [|split].
  - unfold atomic_fetch_sub. rewrite Hp. eexists. split; [reflexivity|]. cbn.
    rewrite lookup_insert_eq. split; [reflexivity|].
    intros Hc. unfold wrap. rewrite Z.mod_small by lia. reflexivity.
  - exists (after_release p c s). split; [now apply release_ok|].
    split; [apply handles_after_release|]. unfold after_release. split.
    + intros ->. cbn. done.
    + intros Hc. destruct (c =? 1) eqn:E; [apply Z.eqb_eq in E; contradiction|].
      cbn. done.
  - intros o s0 s1 H. exact (traced_exec o _ _ _ H).
Qed.

Lemma release_spec_witness :
  ∃ s', intrusive_ptr_release 16 spec_state = Ok tt s' ∧
        heap s' = delete 16 (heap spec_state) ∧
        trace s' = [EvAddRef 16; EvRelease 16 1; EvDelete 16].
Proof.
  destruct (release_spec spec_state 16 1) as (_ & (s' & H & _ & H1 & _) & _).
  - reflexivity.
  - exists s'. split; [exact H|]. destruct (H1 eq_refl) as [Hh Ht].
    split; [exact Hh | exact Ht].
Defined.

(** ** Counting holders *)

Lemma holders_insert_fresh (m : gmap nat Z) h p o :
  m !! h = None →
  holders o (<[h := p]> m) = (holders o m + one_if (bool_decide (p = o)))%nat.
Proof.
  intros Hm. unfold holders. case_bool_decide as Hp; cbn.
  - rewrite map_filter_insert_True by done.
    rewrite map_size_insert_None; [lia|].
    apply map_lookup_filter_None. left. exact Hm.
  - rewrite map_filter_insert_False by done.
    rewrite (delete_id _ _ Hm). lia.
Qed.

Lemma holders_delete (m : gmap nat Z) h p o :
  m !! h = Some p →
  (holders o (delete h m) + one_if (bool_decide (p = o)))%nat = holders o m.
Proof.
  intros Hm. rewrite <- (insert_id m h p Hm) at 2.
  rewrite <- insert_delete_eq.
  rewrite holders_insert_fresh by apply lookup_delete_eq. reflexivity.
Qed.

Lemma holders_insert_over (m : gmap nat Z) h p q o :
  m !! h = Some p →
  (holders o (<[h := q]> m) + one_if (bool_decide (p = o)))%nat
  = (holders o m + one_if (bool_decide (q = o)))%nat.
Proof.
  intros Hm. rewrite <- (holders_delete m h p o Hm).
  rewrite <- (insert_delete_eq m).
  rewrite holders_insert_fresh by apply lookup_delete_eq. lia.
Qed.

Lemma holders_held (m : gmap nat Z) h o : m !! h = Some o → (0 < holders o m)%nat.
Proof.
  intros Hm. rewrite <- (holders_delete m h o o Hm).
  rewrite bool_decide_eq_true_2 by done. cbn. lia.
Qed.

Lemma holders_holder (m : gmap nat Z) o :
  (0 < holders o m)%nat → ∃ h, m !! h = Some o.
Proof.
  intros Hpos. unfold holders in Hpos.
  destruct (map_size_ne_0_lookup_1 (filter (λ kv : nat * Z, kv.2 = o) m))
    as [h [x Hx]]; [lia|].
  apply map_lookup_filter_Some in Hx as [Hx Heq]. cbn in Heq. subst x. eauto.
Qed.

Lemma holders_swap (m : gmap nat Z) a b x y o :
  m !! a = Some x → m !! b = Some y →
  holders o (<[b := x]> (<[a := y]> m)) = holders o m.
Proof.
  intros Ha Hb. destruct (decide (a = b)) as [->|Hne].
  - assert (x = y) as -> by congruence.
    now rewrite insert_insert_eq, insert_id.
  - pose proof (holders_insert_over m a x y o Ha) as H1.
    pose proof (holders_insert_over (<[a := y]> m) b y x o) as H2.
    rewrite lookup_insert_ne in H2 by done. specialize (H2 Hb). lia.
Qed.

(** ** Counting acquisitions *)

Lemma add_refs_app t1 t2 : add_refs (t1 ++ t2) = (add_refs t1 + add_refs t2)%nat.
Proof. unfold add_refs. now rewrite filter_app, length_app. Qed.

Lemma add_refs_release_events p c : add_refs (release_events p c) = 0%nat.
Proof. unfold release_events. now destruct (c =? 1). Qed.

Lemma add_refs_add_ref p : add_refs [EvAddRef p] = 1%nat.
Proof. reflexivity. Qed.

Lemma add_refs_release t p c : add_refs (t ++ [EvRelease p c]) = add_refs t.
Proof. rewrite add_refs_app. change (add_refs [EvRelease p c]) with 0%nat. lia. Qed.

Lemma add_refs_release_delete t p c :
  add_refs (t ++ [EvRelease p c; EvDelete p]) = add_refs t.
Proof.
  rewrite add_refs_app. change (add_refs [EvRelease p c; EvDelete p]) with 0%nat. lia.
Qed.

(** ** The invariant under the elementary changes of state *)

Lemma wrap_small z : 0 ≤ z < size_t_modulus → wrap z = z.
Proof. intros Hz. unfold wrap. now apply Z.mod_small. Qed.

Lemma live_not_null g s p : consistent g s → is_Some (heap s !! p) → p ≠ nullptr.
Proof. intros Hc [c Hp] ->. rewrite (null_dead _ _ Hc) in Hp. discriminate. Qed.

Lemma owed_null g s : consistent g s → g nullptr = 0%nat.
Proof.
  intros Hc. destruct (g nullptr) eqn:E; [reflexivity|].
  destruct (owed_live _ _ Hc nullptr) as [c Hn]; [lia|].
  rewrite (null_dead _ _ Hc) in Hn. discriminate.
Qed.

Lemma referenced_live g s o :
  consistent g s → o ≠ nullptr →
  (0 < holders o (handles s) + g o)%nat → is_Some (heap s !! o).
Proof.
  intros Hc Ho Hpos. destruct (holders o (handles s)) eqn:E.
  - apply (owed_live _ _ Hc). lia.
  - destruct (holders_holder (handles s) o) as [h Hh]; [lia|].
    exact (handles_live _ _ Hc h o Hh Ho).
Qed.

Lemma consistent_ext g g' s : (∀ o, g o = g' o) → consistent g s → consistent g' s.
Proof.
  intros Heq [H1 H2 H3 H4 H5]. split; try done.
  - intros o c Ho. rewrite <- Heq. auto.
  - intros o Hpos. rewrite <- Heq in Hpos. auto.
Qed.

(** The handles change and references pass between handles and their
    callers, the total per object staying the same. *)
Lemma consistent_rehandle g g' s hs' :
  consistent g s →
  (∀ o, o ≠ nullptr →
     (holders o hs' + g' o = holders o (handles s) + g o)%nat) →
  g' nullptr = 0%nat →
  consistent g' (with_handles hs' s).
Proof.
  intros Hc Hbal Hnull. unfold with_handles. split; cbn [heap handles trace].
  - intros o c Ho. rewrite Hbal.
    + exact (count_exact _ _ Hc o c Ho).
    + apply (live_not_null g s); eauto.
  - intros h p Hh Hp. apply (referenced_live g s p Hc Hp).
    rewrite <- Hbal by done. pose proof (holders_held hs' h p Hh). lia.
  - intros o Hpos. assert (o ≠ nullptr) as Ho by (intros ->; lia).
    apply (referenced_live g s o Hc Ho). rewrite <- Hbal by done. lia.
  - exact (count_bounded _ _ Hc).
  - exact (null_dead _ _ Hc).
Qed.

Lemma consistent_add_ref g s p c :
  consistent g s → heap s !! p = Some c →
  Z.of_nat (add_refs (trace s)) + 1 < size_t_modulus →
  consistent (owe p g) (after_add_ref p c s).
Proof.
  intros Hc Hp Hb. pose proof (count_exact _ _ Hc p c Hp) as Hpc.
  pose proof (count_bounded _ _ Hc p c Hp) as Hpb.
  assert (Hw : wrap (c + 1) = c + 1) by (apply wrap_small; lia).
  unfold after_add_ref. split; cbn [heap handles trace]; unfold owe.
  - intros o c' Ho. destruct (decide (o = p)) as [->|Hne].
    + rewrite lookup_insert_eq in Ho. simplify_eq. lia.
    + rewrite lookup_insert_ne in Ho by done. exact (count_exact _ _ Hc o c' Ho).
  - intros h q Hh Hq. destruct (decide (p = q)) as [->|Hne].
    + rewrite lookup_insert_eq. eauto.
    + rewrite lookup_insert_ne by done. exact (handles_live _ _ Hc h q Hh Hq).
  - intros o Hpos. destruct (decide (o = p)) as [->|Hne].
    + rewrite lookup_insert_eq. eauto.
    + rewrite lookup_insert_ne by done. exact (owed_live _ _ Hc o Hpos).
  - intros o c' Ho. rewrite add_refs_app, add_refs_add_ref.
    destruct (decide (o = p)) as [->|Hne].
    + rewrite lookup_insert_eq in Ho. simplify_eq. lia.
    + rewrite lookup_insert_ne in Ho by done.
      pose proof (count_bounded _ _ Hc o c' Ho). lia.
  - rewrite lookup_insert_ne; [exact (null_dead _ _ Hc)|].
    apply (live_not_null g s); eauto.
Qed.

Lemma consistent_release g g' s p c :
  consistent g s → heap s !! p = Some c → settle p g = Some g' →
  Z.of_nat (add_refs (trace s)) < size_t_modulus →
  consistent g' (after_release p c s).
Proof.
  intros Hc Hp Hs Hb. unfold settle in Hs.
  destruct (decide (0 < g p)%nat) as [Hpos|]; [|discriminate]. simplify_eq.
  pose proof (count_exact _ _ Hc p c Hp) as Hpc.
  pose proof (count_bounded _ _ Hc p c Hp) as Hpb.
  unfold after_release. destruct (c =? 1) eqn:E.
  - apply Z.eqb_eq in E. subst c.
    assert (Hhold : holders p (handles s) = 0%nat) by lia.
    split; cbn [heap handles trace].
    + intros o c' Ho. destruct (decide (o = p)) as [->|Hne].
      * rewrite lookup_delete_eq in Ho. discriminate.
      * rewrite lookup_delete_ne in Ho by done. exact (count_exact _ _ Hc o c' Ho).
    + intros h q Hh Hq. rewrite lookup_delete_ne.
      * exact (handles_live _ _ Hc h q Hh Hq).
      * intros <-. pose proof (holders_held _ _ _ Hh). lia.
    + intros o Ho. destruct (decide (o = p)) as [->|Hne]; [lia|].
      rewrite lookup_delete_ne by done. exact (owed_live _ _ Hc o Ho).
    + intros o c' Ho. rewrite ?add_refs_release_delete, ?add_refs_release.
      destruct (decide (o = p)) as [->|Hne].
      * rewrite lookup_delete_eq in Ho. discriminate.
      * rewrite lookup_delete_ne in Ho by done. exact (count_bounded _ _ Hc o c' Ho).
    + destruct (decide (p = nullptr)) as [->|Hne].
      * apply lookup_delete_eq.
      * rewrite lookup_delete_ne by done. exact (null_dead _ _ Hc).
  - apply Z.eqb_neq in E.
    assert (Hw : wrap (c - 1) = c - 1) by (apply wrap_small; lia).
    split; cbn [heap handles trace].
    + intros o c' Ho. destruct (decide (o = p)) as [->|Hne].
      * rewrite lookup_insert_eq in Ho. simplify_eq. lia.
      * rewrite lookup_insert_ne in Ho by done. exact (count_exact _ _ Hc o c' Ho).
    + intros h q Hh Hq. destruct (decide (p = q)) as [->|Hne].
      * rewrite lookup_insert_eq. eauto.
      * rewrite lookup_insert_ne by done. exact (handles_live _ _ Hc h q Hh Hq).
    + intros o Ho. destruct (decide (o = p)) as [->|Hne].
      * rewrite lookup_insert_eq. eauto.
      * rewrite lookup_insert_ne by done. exact (owed_live _ _ Hc o Ho).
    + intros o c' Ho. rewrite ?add_refs_release_delete, ?add_refs_release.
      destruct (decide (o = p)) as [->|Hne].
      * rewrite lookup_insert_eq in Ho. simplify_eq. lia.
      * rewrite lookup_insert_ne in Ho by done. exact (count_bounded _ _ Hc o c' Ho).
    + rewrite lookup_insert_ne; [exact (null_dead _ _ Hc)|].
      apply (live_not_null g s); eauto.
Qed.

Lemma consistent_alloc g s p :
  consistent g s → p ≠ nullptr → heap s !! p = None →
  consistent g (State (<[p := 0]> (heap s)) (handles s) (trace s)).
Proof.
  intros Hc Hp Hfree.
  assert (Hnone : (holders p (handles s) + g p = 0)%nat).
  { destruct (holders p (handles s) + g p)%nat eqn:E; [reflexivity|].
    destruct (referenced_live g s p Hc Hp) as [c Hl]; [lia|]. congruence. }
  split; cbn [heap handles trace].
  - intros o c Ho. destruct (decide (o = p)) as [->|Hne].
    + rewrite lookup_insert_eq in Ho. simplify_eq. lia.
    + rewrite lookup_insert_ne in Ho by done. exact (count_exact _ _ Hc o c Ho).
  - intros h q Hh Hq. destruct (decide (p = q)) as [->|Hne].
    + rewrite lookup_insert_eq. eauto.
    + rewrite lookup_insert_ne by done. exact (handles_live _ _ Hc h q Hh Hq).
  - intros o Ho. destruct (decide (o = p)) as [->|Hne].
    + rewrite lookup_insert_eq. eauto.
    + rewrite lookup_insert_ne by done. exact (owed_live _ _ Hc o Ho).
  - intros o c Ho. destruct (decide (o = p)) as [->|Hne].
    + rewrite lookup_insert_eq in Ho. simplify_eq. lia.
    + rewrite lookup_insert_ne in Ho by done. exact (count_bounded _ _ Hc o c Ho).
  - rewrite lookup_insert_ne by done. exact (null_dead _ _ Hc).
Qed.

(** ** The invariant under the methods *)

Lemma coherent_intro g g' s s' :
  coherent g s →
  (add_refs (trace s) ≤ add_refs (trace s'))%nat →
  (Z.of_nat (add_refs (trace s')) < size_t_modulus →
   consistent g s → consistent g' s') →
  coherent g' s'.
Proof. intros Hcoh Hle H Hb. apply H; [exact Hb|]. apply Hcoh. lia. Qed.

Lemma after_release_with_handles p c hs s :
  after_release p c (with_handles hs s) = with_handles hs (after_release p c s).
Proof. unfold after_release, with_handles. now destruct (c =? 1). Qed.

Lemma add_refs_after_release p c s :
  add_refs (trace (after_release p c s)) = add_refs (trace s).
Proof.
  rewrite trace_after_release, add_refs_app, add_refs_release_events. lia.
Qed.

Lemma settle_owe p g : ∃ g', settle p (owe p g) = Some g' ∧ ∀ o, g' o = g o.
Proof.
  unfold settle, owe. destruct (decide (p = p)) as [_|Hne]; [|now elim Hne].
  destruct (decide (0 < S (g p))%nat) as [_|Hn]; [|lia].
  eexists. split; [reflexivity|]. intros o. cbn. now destruct (decide (o = p)).
Qed.

Lemma one_if_null o : o ≠ nullptr → one_if (bool_decide (nullptr = o)) = 0%nat.
Proof. intros Ho. now rewrite bool_decide_eq_false_2. Qed.

Ltac not_ok H :=
  exfalso;
  unfold intrusive_ptr.ctor_default, intrusive_ptr.ctor_raw, intrusive_ptr.ctor_copy,
    intrusive_ptr.ctor_move, intrusive_ptr.dtor, intrusive_ptr.swap,
    intrusive_ptr.detach in H;
  unfold_m; cbn in H;
  repeat (case_match; simplify_map_eq/=; try done);
  repeat match goal with
         | E : negb (_ =? nullptr) = false |- _ => apply negb_false_iff, Z.eqb_eq in E
         end;
  try congruence.

Lemma preserves_ret {A} g (a : A) : preserves g g (mret a : M A).
Proof. intros s a' s' Hcoh H. injection H as <- <-. exact Hcoh. Qed.

Lemma preserves_bind {A B} g1 g2 g3 (m : M A) (f : A → M B) :
  preserves g1 g2 m → (∀ a, preserves g2 g3 (f a)) → preserves g1 g3 (m ≫= f).
Proof.
  intros Hm Hf s b s'' Hcoh H. unfold mbind, M_bind in H.
  destruct (m s) as [a s'| |] eqn:Em; try discriminate.
  exact (Hf a _ _ _ (Hm _ _ _ Hcoh Em) H).
Qed.

(** A computation that returns in the state it started from. *)
Lemma preserves_pure {A} g (m : M A) :
  (∀ s a s', m s = Ok a s' → s' = s) → preserves g g m.
Proof. intros Hm s a s' Hcoh H. now rewrite (Hm _ _ _ H). Qed.

Lemma preserves_flows_off_the_end {A} g : preserves g g (flows_off_the_end : M A).
Proof. intros s a s' _ H. discriminate H. Qed.

Lemma preserves_field_read g h : preserves g g (field_read h).
Proof.
  apply preserves_pure. intros s a s' H. unfold field_read in H.
  destruct (handles s !! h); now simplify_eq.
Qed.

Lemma preserves_fresh_handle g : preserves g g fresh_handle.
Proof. apply preserves_pure. intros s a s' H. unfold fresh_handle in H. now simplify_eq. Qed.

Lemma preserves_cxx_assert g b : preserves g g (cxx_assert b).
Proof.
  apply preserves_pure. intros s a s' H. unfold cxx_assert in H.
  destruct b; now simplify_eq.
Qed.

Lemma preserves_atomic_load g p : preserves g g (atomic_load p).
Proof.
  apply preserves_pure. intros s a s' H. unfold atomic_load in H.
  destruct (heap s !! p); now simplify_eq.
Qed.

Lemma preserves_object_alloc g p : preserves g g (object_alloc p 0).
Proof.
  intros s a s' Hcoh H. unfold object_alloc in H.
  destruct (decide (p = nullptr)) as [|Hp]; [discriminate|].
  destruct (heap s !! p) eqn:E; simplify_eq.
  apply (coherent_intro g g s); [done | cbn [with_handles trace]; lia |].
  intros _ Hc. now apply consistent_alloc.
Qed.

Lemma preserves_add_ref g p : preserves g (owe p g) (intrusive_ptr_add_ref p).
Proof.
  intros s a s' Hcoh H. destruct (heap s !! p) as [c|] eqn:E.
  - rewrite (add_ref_ok _ _ _ E) in H. simplify_eq.
    apply (coherent_intro g _ s); [done | |].
    + cbn [after_add_ref trace]. rewrite add_refs_app. lia.
    + cbn [after_add_ref trace]. rewrite add_refs_app, add_refs_add_ref.
      intros Hb Hc. apply consistent_add_ref; [done | done | lia].
  - rewrite (add_ref_dead _ _ E) in H. discriminate.
Qed.

Lemma preserves_release g g' p :
  settle p g = Some g' → preserves g g' (intrusive_ptr_release p).
Proof.
  intros Hs s a s' Hcoh H. destruct (heap s !! p) as [c|] eqn:E.
  - rewrite (release_ok _ _ _ E) in H. simplify_eq.
    apply (coherent_intro g _ s); [done | |]; rewrite add_refs_after_release; [lia|].
    intros Hb Hc. now apply (consistent_release g).
  - rewrite (release_dead _ _ E) in H. discriminate.
Qed.

Lemma preserves_ctor_default g h : preserves g g (intrusive_ptr.ctor_default h).
Proof.
  intros s a s' Hcoh H. destruct (handles s !! h) eqn:Eh; [not_ok H|].
  rewrite (ctor_default_ok _ _ Eh) in H. simplify_eq.
  apply (coherent_intro g g s); [done | cbn [with_handles trace]; lia |].
  intros _ Hc. apply (consistent_rehandle g); [done | | exact (owed_null _ _ Hc)].
  intros o Ho. rewrite holders_insert_fresh, one_if_null by done. lia.
Qed.

(** A handle that takes over a reference its caller held. *)
Lemma consistent_adopt g g' s h p :
  consistent g s → handles s !! h = None → p ≠ nullptr →
  settle p g = Some g' →
  consistent g' (with_handles (<[h := p]> (handles s)) s).
Proof.
  intros Hc Hh Hp Hs. unfold settle in Hs.
  destruct (decide (0 < g p)%nat) as [Hpos|]; [|discriminate]. simplify_eq.
  apply (consistent_rehandle g); [done | |].
  - intros o Ho. rewrite holders_insert_fresh by done.
    destruct (decide (o = p)) as [->|Hne].
    + rewrite bool_decide_eq_true_2 by done. cbn. lia.
    + rewrite bool_decide_eq_false_2 by congruence. cbn. lia.
  - cbn. destruct (decide (nullptr = p)); [congruence|]. exact (owed_null _ _ Hc).
Qed.

(** A handle that acquires the reference it holds. *)
Lemma consistent_acquire g s h p c :
  consistent g s → handles s !! h = None → heap s !! p = Some c →
  Z.of_nat (add_refs (trace s)) + 1 < size_t_modulus →
  consistent g (after_add_ref p c (with_handles (<[h := p]> (handles s)) s)).
Proof.
  intros Hc Hh Hp Hb.
  pose proof (consistent_add_ref g s p c Hc Hp Hb) as H1.
  assert (Hpn : p ≠ nullptr) by (apply (live_not_null g s); eauto).
  change (after_add_ref p c (with_handles (<[h := p]> (handles s)) s))
    with (with_handles (<[h := p]> (handles (after_add_ref p c s)))
            (after_add_ref p c s)).
  apply (consistent_rehandle (owe p g)); [done | |].
  - intros o Ho. cbn [after_add_ref handles]. rewrite holders_insert_fresh by done.
    unfold owe. destruct (decide (o = p)) as [->|Hne].
    + rewrite bool_decide_eq_true_2 by done. cbn. lia.
    + rewrite bool_decide_eq_false_2 by congruence. cbn. lia.
  - exact (owed_null _ _ Hc).
Qed.

Lemma preserves_ctor_raw g g' h p b :
  adopt p b g = Some g' → preserves g g' (intrusive_ptr.ctor_raw h p b).
Proof.
  intros Ha s a s' Hcoh H. destruct (handles s !! h) eqn:Eh; [not_ok H|].
  destruct (acquires p b) eqn:Hacq.
  - destruct (proj1 (acquires_true p b) Hacq) as [Hp ->].
    assert (g' = g) as -> by (unfold adopt in Ha; congruence).
    destruct (heap s !! p) as [c|] eqn:E.
    + rewrite (ctor_raw_acquire _ _ _ _ _ Eh Hacq E) in H. simplify_eq.
      apply (coherent_intro g g s); [done | |].
      * cbn [after_add_ref with_handles trace]. rewrite add_refs_app. lia.
      * cbn [after_add_ref with_handles trace].
        rewrite add_refs_app, add_refs_add_ref. intros Hb Hc.
        apply consistent_acquire; [done | done | done | lia].
    + exfalso. unfold intrusive_ptr.ctor_raw, acquires in *.
      unfold mbind, M_bind, handle_alloc in H. rewrite Eh, Hacq in H.
      rewrite add_ref_dead in H; [discriminate | exact E].
  - rewrite (ctor_raw_plain _ _ _ _ Eh Hacq) in H. simplify_eq.
    apply (coherent_intro g _ s); [done | cbn [with_handles trace]; lia |]. intros _ Hc.
    destruct (decide (p = nullptr)) as [->|Hp].
    + assert (g' = g) as ->.
      { unfold adopt in Ha. destruct b; [congruence|].
        destruct (decide (nullptr = nullptr)); congruence. }
      apply (consistent_rehandle g); [done | | exact (owed_null _ _ Hc)].
      intros o Ho. rewrite holders_insert_fresh, one_if_null by done. lia.
    + assert (b = false) as ->.
      { destruct b; [|reflexivity]. exfalso.
        assert (acquires p true = true) by (apply acquires_true; tauto). congruence. }
      unfold adopt in Ha. destruct (decide (p = nullptr)); [contradiction|].
      now apply (consistent_adopt g).
Qed.

Lemma preserves_ctor_copy g h r : preserves g g (intrusive_ptr.ctor_copy h r).
Proof.
  intros s a s' Hcoh H.
  destruct (handles s !! r) as [p|] eqn:Er; [|not_ok H].
  destruct (handles s !! h) eqn:Eh; [not_ok H|].
  destruct (decide (p = nullptr)) as [->|Hp].
  - rewrite (ctor_copy_null _ _ _ Eh Er) in H. simplify_eq.
    apply (coherent_intro g g s); [done | cbn [with_handles trace]; lia |]. intros _ Hc.
    apply (consistent_rehandle g); [done | | exact (owed_null _ _ Hc)].
    intros o Ho. rewrite holders_insert_fresh, one_if_null by done. lia.
  - destruct (heap s !! p) as [c|] eqn:E.
    + rewrite (ctor_copy_ok _ _ _ _ _ Eh Er Hp E) in H. simplify_eq.
      apply (coherent_intro g g s); [done | |].
      * cbn [after_add_ref with_handles trace]. rewrite add_refs_app. lia.
      * cbn [after_add_ref with_handles trace].
        rewrite add_refs_app, add_refs_add_ref. intros Hb Hc.
        apply consistent_acquire; [done | done | done | lia].
    + not_ok H.
Qed.

Lemma preserves_ctor_move g h r : preserves g g (intrusive_ptr.ctor_move h r).
Proof.
  intros s a s' Hcoh H.
  destruct (handles s !! r) as [p|] eqn:Er; [|not_ok H].
  destruct (handles s !! h) eqn:Eh; [not_ok H|].
  rewrite (ctor_move_ok _ _ _ _ Eh Er) in H. simplify_eq.
  apply (coherent_intro g g s); [done | cbn [with_handles trace]; lia |]. intros _ Hc.
  apply (consistent_rehandle g); [done | | exact (owed_null _ _ Hc)].
  intros o Ho. assert (h ≠ r) by congruence.
  pose proof (holders_insert_over (<[h := p]> (handles s)) r p nullptr o) as H1.
  rewrite lookup_insert_ne in H1 by done. specialize (H1 Er).
  rewrite (holders_insert_fresh _ _ p o Eh), one_if_null in H1 by done. lia.
Qed.

Lemma preserves_dtor g h : preserves g g (intrusive_ptr.dtor h).
Proof.
  intros s a s' Hcoh H.
  destruct (handles s !! h) as [p|] eqn:Eh; [|not_ok H].
  destruct (decide (p = nullptr)) as [->|Hp].
  - rewrite (dtor_null _ _ Eh) in H. simplify_eq.
    apply (coherent_intro g g s); [done | cbn [with_handles trace]; lia |]. intros _ Hc.
    apply (consistent_rehandle g); [done | | exact (owed_null _ _ Hc)].
    intros o Ho. pose proof (holders_delete _ _ _ o Eh) as H1.
    rewrite one_if_null in H1 by done. lia.
  - destruct (heap s !! p) as [c|] eqn:E; [|not_ok H].
    rewrite (dtor_ok _ _ _ _ Eh Hp E) in H. simplify_eq.
    apply (coherent_intro g g s); [done | |].
    + cbn [with_handles trace]. rewrite add_refs_after_release. lia.
    + cbn [with_handles trace]. rewrite add_refs_after_release. intros Hb Hc.
      rewrite <- after_release_with_handles.
      destruct (settle_owe p g) as (g2 & Hs & Hg2).
      apply (consistent_ext g2); [exact Hg2|].
      apply (consistent_release (owe p g)); [| exact E | exact Hs | exact Hb].
      apply (consistent_rehandle g); [done | |].
      * intros o Ho. pose proof (holders_delete _ _ _ o Eh) as H1. unfold owe.
        destruct (decide (o = p)) as [->|Hne].
        -- rewrite bool_decide_eq_true_2 in H1 by done. cbn in H1. lia.
        -- rewrite bool_decide_eq_false_2 in H1 by congruence. cbn in H1. lia.
      * unfold owe. destruct (decide (nullptr = p)); [congruence|].
        exact (owed_null _ _ Hc).
Qed.

Lemma preserves_swap g a b : preserves g g (intrusive_ptr.swap a b).
Proof.
  intros s r s' Hcoh H.
  destruct (handles s !! a) as [x|] eqn:Ea; [|not_ok H].
  destruct (handles s !! b) as [y|] eqn:Eb; [|not_ok H].
  rewrite (swap_ok _ _ _ _ _ Ea Eb) in H. simplify_eq.
  apply (coherent_intro g g s); [done | cbn [with_handles trace]; lia |]. intros _ Hc.
  apply (consistent_rehandle g); [done | | exact (owed_null _ _ Hc)].
  intros o Ho. now rewrite (holders_swap _ _ _ _ _ _ Ea Eb).
Qed.

(** [detach] hands the reference of the handle to the caller. *)
Lemma coherent_detach g s h p a s' :
  coherent g s → handles s !! h = Some p →
  intrusive_ptr.detach h s = Ok a s' →
  coherent (if decide (p = nullptr) then g else owe p g) s'.
Proof.
  intros Hcoh Eh H. rewrite (detach_ok _ _ _ Eh) in H. simplify_eq.
  apply (coherent_intro g _ s); [done | cbn [with_handles trace]; lia |]. intros _ Hc.
  pose proof (owed_null _ _ Hc) as Hnull.
  apply (consistent_rehandle g); [done | |].
  - intros o Ho. pose proof (holders_insert_over _ _ _ nullptr o Eh) as H1.
    rewrite (one_if_null o Ho) in H1.
    destruct (decide (a = nullptr)) as [->|Hp].
    + rewrite one_if_null in H1 by done. lia.
    + unfold owe. destruct (decide (o = a)) as [->|Hne].
      * rewrite bool_decide_eq_true_2 in H1 by done. cbn in H1. lia.
      * rewrite bool_decide_eq_false_2 in H1 by congruence. cbn in H1. lia.
  - destruct (decide (a = nullptr)); [done|]. unfold owe.
    destruct (decide (nullptr = a)); [congruence | done].
Qed.

(** ** The invariant along a program *)

Ltac preserves_step :=
  first
    [ apply preserves_ret | apply preserves_flows_off_the_end
    | apply preserves_field_read
    | apply preserves_fresh_handle | apply preserves_cxx_assert
    | apply preserves_atomic_load | apply preserves_object_alloc
    | apply preserves_ctor_default | apply preserves_ctor_copy
    | apply preserves_ctor_move | apply preserves_dtor | apply preserves_swap
    | apply preserves_add_ref
    | eapply preserves_release; eassumption
    | eapply preserves_ctor_raw; eassumption
    | eapply preserves_ctor_raw; reflexivity
    | eapply preserves_bind; [|intros ?]
    | match goal with |- preserves _ _ (if ?b then _ else _) => destruct b end ].

Ltac preserves_auto :=
  unfold intrusive_ref_counter.ctor, intrusive_ref_counter.copy_ctor,
    intrusive_ref_counter.assign, intrusive_ref_counter.use_count,
    intrusive_ptr.assign_copy, intrusive_ptr.assign_copy_conv,
    intrusive_ptr.assign_raw, intrusive_ptr.assign_move,
    intrusive_ptr.assign_move_conv, intrusive_ptr.reset, intrusive_ptr.reset_raw,
    intrusive_ptr.reset_raw_add_ref, intrusive_ptr.temporary_swap,
    intrusive_ptr.get, intrusive_ptr.operator_bool,
    intrusive_ptr.operator_star, intrusive_ptr.operator_arrow, discard;
  repeat preserves_step.

Lemma exec_coherent o s g g' a s' :
  coherent g s → account o s g = Some g' → exec o s = Ok a s' → coherent g' s'.
Proof.
  intros Hcoh Ha He.
  destruct o; cbn [account] in Ha; cbn [exec] in He;
    try (injection Ha as <-);
    try (revert He; revert Hcoh; revert a s'; revert s;
         match goal with
         | |- ∀ s a s', coherent ?g s → ?m s = Ok a s' → coherent ?g' s' =>
             change (preserves g g' m)
         end;
         preserves_auto; fail).
  (* detach *)
  unfold discard, mbind, M_bind in He.
  destruct (intrusive_ptr.detach h s) as [p s1| |] eqn:Ed; try discriminate.
  injection He as <- <-.
  destruct (handles s !! h) as [q|] eqn:Eh.
  - pose proof (coherent_detach g s h q p s1 Hcoh Eh Ed) as H.
    destruct (decide (q = nullptr)); simplify_eq; exact H.
  - not_ok Ed.
Qed.

Lemma step_coherent o s g s' g' :
  coherent g s → step o (s, g) = Some (s', g') → coherent g' s'.
Proof.
  intros Hcoh H. unfold step in H. cbn in H.
  destruct (account o s g) as [g1|] eqn:Ea; cbn in H; [|discriminate].
  destruct (exec o s) as [a s1| |] eqn:Ee; simplify_eq.
  exact (exec_coherent o s g g' a s' Hcoh Ea Ee).
Qed.

Lemma run_coherent ops : ∀ s g s' g',
  coherent g s → run ops (s, g) = Some (s', g') → coherent g' s'.
Proof.
  induction ops as [|o ops IH]; intros s g s' g' Hcoh H; cbn in H.
  - now simplify_eq.
  - destruct (step o (s, g)) as [[s1 g1]|] eqn:Es; cbn in H; [|discriminate].
    exact (IH _ _ _ _ (step_coherent _ _ _ _ _ Hcoh Es) H).
Qed.

Lemma coherent_init : coherent no_owed init.
Proof.
  intros _. split; cbn; try done.
  intros o Ho. unfold no_owed in Ho. lia.
Qed.

(** ** The count *)

(** C1. Start with no object and no handle and run any program over the
    interface: object construction, the constructors of handles (from a
    raw pointer, by copy, by move), the assignments, [reset], [detach],
    [swap], destruction, reads, and direct calls of the two free
    functions.  If the program runs within the contract (no use of a dead
    object or handle; a pointer is adopted without acquisition, or
    released directly, only against a reference its caller holds), then
    afterwards the counter of every live object [o] is exactly the number
    of handles holding [o] plus the number of references to [o] detached
    or acquired by callers and not yet given back, and [use_count]
    returns it as an [unsigned int].  The counter is a [size_t]: the
    program makes fewer than 2^64 acquisitions. *)
Theorem count_is_outstanding (ops : list op) (s : state) (g : Z → nat) :
  run ops (init, no_owed) = Some (s, g) →
  Z.of_nat (add_refs (trace s)) < size_t_modulus →
  ∀ o c, heap s !! o = Some c →
    c = Z.of_nat (holders o (handles s) + g o) ∧
    intrusive_ref_counter.use_count o s
    = Ok (Z.of_nat (holders o (handles s) + g o) mod unsigned_int_modulus) s.
Proof.
  intros Hrun Hb o c Ho.
  pose proof (run_coherent ops _ _ _ _ coherent_init Hrun Hb) as Hc.
  pose proof (count_exact _ _ Hc o c Ho) as Hk. split; [exact Hk|].
  unfold intrusive_ref_counter.use_count. unfold_m. rewrite Ho, <- Hk. reflexivity.
Qed.

Lemma count_is_outstanding_witness :
  ∃ s g, run scenario (init, no_owed) = Some (s, g) ∧
         heap s !! 16 = Some 1 ∧
         holders 16 (handles s) = 0%nat ∧ g 16 = 1%nat ∧
         intrusive_ref_counter.use_count 16 s = Ok 1 s.
Proof.
  destruct (run scenario (init, no_owed)) as [[s g]|] eqn:Hrun;
    [|vm_compute in Hrun; discriminate].
  exists s, g. split; [reflexivity|].
  assert (Hb : Z.of_nat (add_refs (trace s)) < size_t_modulus).
  { vm_compute in Hrun. injection Hrun as <- <-. vm_compute. reflexivity. }
  assert (Ho : heap s !! 16 = Some 1).
  { vm_compute in Hrun. injection Hrun as <- <-. vm_compute. reflexivity. }
  assert (Hh : holders 16 (handles s) = 0%nat).
  { vm_compute in Hrun. injection Hrun as <- <-. vm_compute. reflexivity. }
  assert (Hg : g 16 = 1%nat).
  { vm_compute in Hrun. injection Hrun as <- <-. vm_compute. reflexivity. }
  destruct (count_is_outstanding scenario s g Hrun Hb 16 1 Ho) as [_ Hu].
  rewrite Hh, Hg in Hu. repeat split; assumption.
Defined.

(** * Further properties of the code *)

(** ** Arithmetic of the counter *)

Lemma wrap_succ_is_one c :
  0 ≤ c < size_t_modulus → (wrap (c + 1) =? 1) = bool_decide (c = 0).
Proof.
  intros Hc. unfold wrap, size_t_modulus in *.
  change (2 ^ 64) with 18446744073709551616 in *.
  destruct (decide (c + 1 < 18446744073709551616)) as [Hlt|Hge].
  - rewrite Z.mod_small by lia. case_bool_decide; [apply Z.eqb_eq | apply Z.eqb_neq]; lia.
  - assert (c + 1 = 18446744073709551616) as -> by lia.
    rewrite Z.mod_same by lia. rewrite bool_decide_eq_false_2 by lia. reflexivity.
Qed.

Lemma wrap_pred_succ c : 0 ≤ c < size_t_modulus → wrap (wrap (c + 1) - 1) = c.
Proof.
  intros Hc. unfold wrap, size_t_modulus in *.
  change (2 ^ 64) with 18446744073709551616 in *.
  destruct (decide (c + 1 < 18446744073709551616)) as [Hlt|Hge].
  - rewrite (Z.mod_small (c + 1)) by lia. rewrite Z.mod_small by lia. lia.
  - assert (c + 1 = 18446744073709551616) as -> by lia.
    rewrite Z.mod_same by lia. assert (c = 18446744073709551615) as -> by lia.
    reflexivity.
Qed.

Lemma state_eta s : State (heap s) (handles s) (trace s) = s.
Proof. now destruct s. Qed.

(** An acquisition of [p] directly followed by a release of [p], on a
    counter that is not 0: the counter is back and nothing is deleted. *)
Lemma acquire_then_release p c hs1 hs s :
  heap s !! p = Some c → 0 ≤ c < size_t_modulus → c ≠ 0 →
  with_handles hs
    (after_release p (wrap (c + 1)) (after_add_ref p c (with_handles hs1 s)))
  = State (heap s) hs (trace s ++ [EvAddRef p; EvRelease p (wrap (c + 1))]).
Proof.
  intros Hp Hc Hn. unfold after_release.
  rewrite (wrap_succ_is_one c Hc), bool_decide_eq_false_2 by done.
  unfold with_handles, after_add_ref. cbn [heap handles trace].
  rewrite insert_insert_eq, (wrap_pred_succ c Hc), (insert_id _ _ _ Hp).
  now rewrite <- app_assoc.
Qed.

(** ** Copy and move construction *)

(** X1. Copy construction from a handle [r] holding [p] gives a handle
    holding [p] and leaves [r] holding [p].  When [p] is null nothing
    else happens; otherwise there is exactly one acquisition, of [p],
    and its counter goes from [c] to [c + 1] in [size_t] arithmetic. *)
Theorem copy_construction_shares (s : state) (h r : nat) (p : Z) :
  handles s !! h = None → handles s !! r = Some p →
  (p ≠ nullptr → is_Some (heap s !! p)) →
  ∃ s',
    intrusive_ptr.ctor_copy h r s = Ok tt s' ∧
    handles s' = <[h := p]> (handles s) ∧
    handles s' !! r = Some p ∧
    (p = nullptr → heap s' = heap s ∧ trace s' = trace s) ∧
    (p ≠ nullptr →
       trace s' = trace s ++ [EvAddRef p] ∧
       ∀ c, heap s !! p = Some c → heap s' = <[p := wrap (c + 1)]> (heap s)).
Proof.
  intros Hh Hr Hlive. assert (Hne : h ≠ r) by congruence.
  destruct (decide (p = nullptr)) as [->|Hp].
  - eexists. split; [exact (ctor_copy_null _ _ _ Hh Hr)|]. cbn.
    rewrite lookup_insert_ne by done. repeat split; try done.
  - destruct (Hlive Hp) as [c Hc].
    eexists. split; [exact (ctor_copy_ok _ _ _ _ _ Hh Hr Hp Hc)|]. cbn.
    rewrite lookup_insert_ne by done.
    split; [done|]. split; [done|]. split; [done|].
    intros _. split; [done|]. intros c' Hc'. congruence.
Qed.

Lemma copy_construction_shares_witness :
  ∃ s', intrusive_ptr.ctor_copy 1 0 spec_state = Ok tt s' ∧
        handles s' !! 1%nat = Some 16 ∧ handles s' !! 0%nat = Some 16 ∧
        heap s' !! 16 = Some 2.
Proof.
  destruct (copy_construction_shares spec_state 1 0 16)
    as (s' & H & Hh & Hr & _ & Hp).
  - reflexivity.
  - reflexivity.
  - intros _. exists 1. reflexivity.
  - exists s'. split; [exact H|]. split; [now rewrite Hh|]. split; [exact Hr|].
    destruct Hp as [_ Hheap]; [discriminate|].
    rewrite (Hheap 1 eq_refl). reflexivity.
Defined.

(** X2. Move construction from a handle [r] holding [p] gives a handle
    holding [p] and leaves [r] null.  No counter is read or written and
    no free function is called, and every object has as many holders
    after as before: the reference has changed hands. *)
Theorem move_construction_transfers (s : state) (h r : nat) (p : Z) :
  handles s !! h = None → handles s !! r = Some p →
  ∃ s',
    intrusive_ptr.ctor_move h r s = Ok tt s' ∧
    handles s' !! h = Some p ∧ handles s' !! r = Some nullptr ∧
    heap s' = heap s ∧ trace s' = trace s ∧
    ∀ o, o ≠ nullptr → holders o (handles s') = holders o (handles s).
Proof.
  intros Hh Hr. assert (Hne : h ≠ r) by congruence.
  eexists. split; [exact (ctor_move_ok _ _ _ _ Hh Hr)|]. cbn.
  rewrite lookup_insert_eq, lookup_insert_ne, lookup_insert_eq by done.
  repeat split; try done.
  intros o Ho.
  pose proof (holders_insert_over (<[h := p]> (handles s)) r p nullptr o) as H1.
  rewrite lookup_insert_ne in H1 by done. specialize (H1 Hr).
  rewrite (holders_insert_fresh _ _ p o Hh), one_if_null in H1 by done. lia.
Qed.

Lemma move_construction_transfers_witness :
  ∃ s', intrusive_ptr.ctor_move 1 0 spec_state = Ok tt s' ∧
        handles s' !! 1%nat = Some 16 ∧ handles s' !! 0%nat = Some nullptr ∧
        heap s' = heap spec_state ∧
        holders 16 (handles s') = holders 16 (handles spec_state).
Proof.
  destruct (move_construction_transfers spec_state 1 0 16)
    as (s' & H & Hh & Hr & Hheap & _ & Hhold).
  - reflexivity.
  - reflexivity.
  - exists s'. repeat split; try assumption. apply Hhold. discriminate.
Defined.

(** ** Destruction *)

(** X3. The destructor of a handle holding [p] ends the handle and
    releases [p] exactly once when [p] is not null; it acquires nothing
    and releases nothing else, and on a null handle no counter is
    touched. *)
Theorem destructor_releases_once (s : state) (h : nat) (p : Z) :
  handles s !! h = Some p →
  (p ≠ nullptr → is_Some (heap s !! p)) →
  ∃ s' t,
    intrusive_ptr.dtor h s = Ok tt s' ∧
    handles s' = delete h (handles s) ∧
    trace s' = trace s ++ t ∧
    (∀ o, add_refs_of o t = 0%nat) ∧
    (∀ o, releases_of o t = one_if (bool_decide (p ≠ nullptr ∧ o = p))) ∧
    (p = nullptr → heap s' = heap s ∧ t = []).
Proof.
  intros Hh Hlive. destruct (decide (p = nullptr)) as [->|Hp].
  - eexists _, []. split; [exact (dtor_null _ _ Hh)|]. cbn.
    rewrite app_nil_r. split; [done|]. split; [done|]. split; [done|].
    split; [|done]. intros o. rewrite bool_decide_eq_false_2; [done|tauto].
  - destruct (Hlive Hp) as [c Hc].
    eexists _, (release_events p c). split; [exact (dtor_ok _ _ _ _ Hh Hp Hc)|].
    cbn [with_handles handles trace]. rewrite trace_after_release.
    split; [done|]. split; [done|]. split; [|split].
    + intros o. apply add_refs_of_release_events.
    + intros o. rewrite releases_of_release_events. f_equal.
      apply bool_decide_ext. split; [intros <-; tauto | intros [_ ->]; reflexivity].
    + intros ->. now elim Hp.
Qed.

Lemma destructor_releases_once_witness :
  ∃ s' t, intrusive_ptr.dtor 0 shared_state = Ok tt s' ∧
          trace s' = trace shared_state ++ t ∧
          releases_of 16 t = 1%nat ∧ handles s' !! 0%nat = None.
Proof.
  destruct (destructor_releases_once shared_state 0 16)
    as (s' & t & H & Hh & Ht & _ & Hrel & _).
  - reflexivity.
  - intros _. exists 2. reflexivity.
  - exists s', t. split; [exact H|]. split; [exact Ht|].
    split; [exact (Hrel 16)|]. rewrite Hh. reflexivity.
Defined.

(** ** A handle that comes and goes *)

(** X4. A handle is constructed from a raw pointer [p] with acquisition
    and then destroyed.  The handles are as before.  When the counter of
    [p] was 0, the object is destroyed: the handle was its only owner.
    When it was not 0, the heap is exactly as before, for every value of
    the counter, the largest one included. *)
Theorem scoped_handle_roundtrip (s : state) (h : nat) (p c : Z) :
  handles s !! h = None → heap s !! p = Some c → p ≠ nullptr →
  0 ≤ c < size_t_modulus →
  ∃ s1 s2,
    intrusive_ptr.ctor_raw h p true s = Ok tt s1 ∧
    intrusive_ptr.dtor h s1 = Ok tt s2 ∧
    handles s2 = handles s ∧
    (c = 0 → heap s2 = delete p (heap s)) ∧
    (c ≠ 0 → heap s2 = heap s).
Proof.
  intros Hh Hp Hn Hc.
  assert (Hacq : acquires p true = true) by (apply acquires_true; tauto).
  eexists _, _. split; [exact (ctor_raw_acquire _ _ _ _ _ Hh Hacq Hp)|].
  split.
  - apply (dtor_ok _ h p (wrap (c + 1))); [| exact Hn |]; cbn.
    + apply lookup_insert_eq.
    + apply lookup_insert_eq.
  - cbn [with_handles after_add_ref handles heap].
    rewrite delete_insert_eq, (delete_id _ _ Hh). split; [done|].
    unfold after_release. rewrite (wrap_succ_is_one c Hc). split.
    + intros ->. rewrite bool_decide_eq_true_2 by done. cbn.
      now rewrite delete_insert_eq.
    + intros Hc0. rewrite bool_decide_eq_false_2 by done. cbn.
      now rewrite insert_insert_eq, (wrap_pred_succ c Hc), (insert_id _ _ _ Hp).
Qed.

Lemma scoped_handle_roundtrip_witness :
  ∃ s1 s2,
    intrusive_ptr.ctor_raw 0 16 true unacquired_state = Ok tt s1 ∧
    intrusive_ptr.dtor 0 s1 = Ok tt s2 ∧
    heap s2 = delete 16 (heap unacquired_state).
Proof.
  destruct (scoped_handle_roundtrip unacquired_state 0 16 0)
    as (s1 & s2 & H1 & H2 & _ & H0 & _).
  - reflexivity.
  - reflexivity.
  - discriminate.
  - unfold size_t_modulus. lia.
  - exists s1, s2. repeat split; try assumption. now apply H0.
Defined.

(** X5. A handle is constructed from [p] without acquisition and then
    destroyed: the pair makes one release and no acquisition.  The
    object is destroyed exactly when its counter was 1.  When the counter
    was 0 (an object nobody had acquired), the object stays and its
    counter wraps to the largest [size_t]. *)
Theorem adopt_then_destroy (s : state) (h : nat) (p c : Z) :
  handles s !! h = None → heap s !! p = Some c → p ≠ nullptr →
  ∃ s1 s2,
    intrusive_ptr.ctor_raw h p false s = Ok tt s1 ∧
    heap s1 = heap s ∧ trace s1 = trace s ∧
    intrusive_ptr.dtor h s1 = Ok tt s2 ∧
    handles s2 = handles s ∧
    trace s2 = trace s ++ release_events p c ∧
    (c = 1 → heap s2 = delete p (heap s)) ∧
    (c ≠ 1 → heap s2 = <[p := wrap (c - 1)]> (heap s)) ∧
    (c = 0 → heap s2 !! p = Some (size_t_modulus - 1)).
Proof.
  intros Hh Hp Hn.
  assert (Hacq : acquires p false = false) by (unfold acquires; apply andb_false_r).
  eexists _, _. split; [exact (ctor_raw_plain _ _ _ _ Hh Hacq)|].
  split; [done|]. split; [done|]. split.
  - apply (dtor_ok _ h p c); [| exact Hn | exact Hp]. cbn. apply lookup_insert_eq.
  - cbn [with_handles handles heap trace]. rewrite trace_after_release. cbn.
    rewrite delete_insert_eq, (delete_id _ _ Hh).
    split; [done|]. split; [done|]. unfold after_release. split; [|split].
    + intros ->. reflexivity.
    + intros Hc. destruct (c =? 1) eqn:E; [apply Z.eqb_eq in E; contradiction|].
      reflexivity.
    + intros ->. cbn. now rewrite lookup_insert_eq.
Qed.

Lemma adopt_then_destroy_witness :
  ∃ s1 s2,
    intrusive_ptr.ctor_raw 0 16 false unacquired_state = Ok tt s1 ∧
    intrusive_ptr.dtor 0 s1 = Ok tt s2 ∧
    heap s2 !! 16 = Some (size_t_modulus - 1) ∧
    trace s2 = [EvRelease 16 0].
Proof.
  destruct (adopt_then_destroy unacquired_state 0 16 0)
    as (s1 & s2 & H1 & _ & _ & H2 & _ & Ht & _ & _ & H0).
  - reflexivity.
  - reflexivity.
  - discriminate.
  - exists s1, s2. split; [exact H1|]. split; [exact H2|].
    split; [now apply H0 | exact Ht].
Defined.

(** ** Assignment between two handles *)

(** X6. Copy assignment [h = r] between two different handles, [h]
    holding [p] and [r] holding [q]: both forms of the operator return
    [h] in the same state, where [h] holds [q].  The acquisition of [q]
    (when not null) comes first and the one release of [p] (when not
    null) after it; nothing else is acquired or released. *)
Theorem copy_assignment_spec (s : state) (h r : nat) (p q : Z) :
  h ≠ r → handles s !! h = Some p → handles s !! r = Some q →
  (p ≠ nullptr → is_Some (heap s !! p)) →
  (q ≠ nullptr → is_Some (heap s !! q)) →
  ∃ s' t2,
    intrusive_ptr.assign_copy h r s = Ok h s' ∧
    intrusive_ptr.assign_copy_conv h r s = Ok h s' ∧
    handles s' = <[h := q]> (handles s) ∧
    trace s' = trace s ++ (if decide (q = nullptr) then [] else [EvAddRef q]) ++ t2 ∧
    (∀ o, add_refs_of o t2 = 0%nat) ∧
    (∀ o, releases_of o t2 = one_if (bool_decide (p ≠ nullptr ∧ o = p))).
Proof.
  intros Hne Hh Hr Hp Hq.
  pose proof (fresh_handle_free (handles s)) as Hfresh.
  assert (∃ s1,
    intrusive_ptr.ctor_copy (fresh (dom (handles s))) r s = Ok tt s1 ∧
    handles s1 = <[fresh (dom (handles s)) := q]> (handles s) ∧
    trace s1 = trace s ++ (if decide (q = nullptr) then [] else [EvAddRef q]) ∧
    (p ≠ nullptr → is_Some (heap s1 !! p))) as (s1 & Hc & Hs1 & Ht1 & Hlive).
  { destruct (decide (q = nullptr)) as [->|Hqn].
    - eexists. split; [exact (ctor_copy_null _ _ _ Hfresh Hr)|]. cbn.
      rewrite app_nil_r. done.
    - destruct (Hq Hqn) as [c Hc].
      eexists. split; [exact (ctor_copy_ok _ _ _ _ _ Hfresh Hr Hqn Hc)|]. cbn.
      split; [done|]. split; [done|]. intros Hpn.
      destruct (decide (q = p)) as [->|Hqp].
      + rewrite lookup_insert_eq. eauto.
      + rewrite lookup_insert_ne by done. auto. }
  destruct (temporary_swap_spec (λ tmp, intrusive_ptr.ctor_copy tmp r) h s s1 p q _
              Hh Hc Hs1 Ht1 Hlive) as (s' & t2 & Hrun & Hhs & Ht & Hadd & Hrel).
  exists s', t2.
  unfold intrusive_ptr.assign_copy, intrusive_ptr.assign_copy_conv.
  destruct (decide (h ≠ r)) as [_|Hn]; [|contradiction].
  unfold mbind, M_bind in *. rewrite Hrun. done.
Qed.

Lemma copy_assignment_spec_witness :
  ∃ s', intrusive_ptr.assign_copy 0 1 two_objects_state = Ok 0%nat s' ∧
        handles s' = <[0%nat := 32]> (handles two_objects_state).
Proof.
  destruct (copy_assignment_spec two_objects_state 0 1 16 32)
    as (s' & t2 & H & _ & Hh & _).
  - discriminate.
  - reflexivity.
  - reflexivity.
  - intros _. exists 1. reflexivity.
  - intros _. exists 1. reflexivity.
  - exists s'. split; assumption.
Defined.

(** X7. Move assignment [h = std::move(r)] between two different
    handles, [h] holding [p] and [r] holding [q]: both forms of the
    operator return [h] in the same state, where [h] holds [q] and [r] is
    null.  Nothing is acquired; the only call is one release of [p] when
    it is not null. *)
Theorem move_assignment_spec (s : state) (h r : nat) (p q : Z) :
  h ≠ r → handles s !! h = Some p → handles s !! r = Some q →
  (p ≠ nullptr → is_Some (heap s !! p)) →
  ∃ s' t,
    intrusive_ptr.assign_move h r s = Ok h s' ∧
    intrusive_ptr.assign_move_conv h r s = Ok h s' ∧
    handles s' = <[h := q]> (<[r := nullptr]> (handles s)) ∧
    trace s' = trace s ++ t ∧
    (∀ o, add_refs_of o t = 0%nat) ∧
    (∀ o, releases_of o t = one_if (bool_decide (p ≠ nullptr ∧ o = p))).
Proof.
  intros Hne Hh Hr Hp.
  pose proof (fresh_handle_free (handles s)) as Hfresh.
  set (tmp := fresh (dom (handles s))) in *.
  assert (Htr : tmp ≠ r) by congruence.
  pose proof (temporary_swap_ok (λ tmp, intrusive_ptr.ctor_move tmp r) h s
    (with_handles (<[r := nullptr]> (<[tmp := q]> (handles s))) s)
    (<[r := nullptr]> (handles s)) p q) as Hrun.
  fold tmp in Hrun.
  specialize (Hrun (ctor_move_ok _ _ _ _ Hfresh Hr)).
  cbn [with_handles handles heap] in Hrun.
  rewrite (insert_insert_ne _ r tmp) in Hrun by done.
  specialize (Hrun eq_refl).
  rewrite !lookup_insert_ne in Hrun by done.
  specialize (Hrun Hfresh Hh).
  assert (∃ s' t,
    intrusive_ptr.temporary_swap (λ tmp, intrusive_ptr.ctor_move tmp r) h s = Ok tt s' ∧
    handles s' = <[h := q]> (<[r := nullptr]> (handles s)) ∧
    trace s' = trace s ++ t ∧
    (∀ o, add_refs_of o t = 0%nat) ∧
    (∀ o, releases_of o t = one_if (bool_decide (p ≠ nullptr ∧ o = p))))
    as (s' & t & Hts & Hhs & Ht & Hadd & Hrel).
  { destruct (decide (p = nullptr)) as [->|Hpn].
    - eexists _, []. split; [exact Hrun|]. cbn. rewrite app_nil_r.
      split; [done|]. split; [done|]. split; [done|].
      intros o. rewrite bool_decide_eq_false_2; [done|tauto].
    - destruct (Hp Hpn) as [c Hc]. rewrite Hc in Hrun.
      eexists _, (release_events p c). split; [exact Hrun|].
      cbn [with_handles handles trace]. rewrite trace_after_release. cbn.
      split; [done|]. split; [done|]. split.
      + intros o. apply add_refs_of_release_events.
      + intros o. rewrite releases_of_release_events. f_equal.
        apply bool_decide_ext. split; [intros <-; tauto | intros [_ ->]; reflexivity]. }
  exists s', t.
  unfold intrusive_ptr.assign_move, intrusive_ptr.assign_move_conv.
  destruct (decide (h ≠ r)) as [_|Hn]; [|contradiction].
  unfold mbind, M_bind in *. rewrite Hts. done.
Qed.

Lemma move_assignment_spec_witness :
  ∃ s' t, intrusive_ptr.assign_move 0 1 two_objects_state = Ok 0%nat s' ∧
          handles s' = <[0%nat := 32]> (<[1%nat := nullptr]> (handles two_objects_state)) ∧
          trace s' = trace two_objects_state ++ t ∧
          add_refs_of 32 t = 0%nat.
Proof.
  destruct (move_assignment_spec two_objects_state 0 1 16 32)
    as (s' & t & H & _ & Hh & Ht & Hadd & _).
  - discriminate.
  - reflexivity.
  - reflexivity.
  - intros _. exists 1. reflexivity.
  - exists s', t. repeat split; try assumption. apply Hadd.
Defined.

(** X8. Copy assignment between two different handles that hold the
    same object, whose counter [c] is not 0: the acquisition precedes the
    release, so the release never observes 1.  The object is not
    deleted, and heap and handles are exactly as before. *)
Theorem copy_assignment_same_object (s : state) (h r : nat) (p c : Z) :
  h ≠ r → handles s !! h = Some p → handles s !! r = Some p →
  p ≠ nullptr → heap s !! p = Some c → 0 ≤ c < size_t_modulus → c ≠ 0 →
  intrusive_ptr.assign_copy h r s
  = Ok h (State (heap s) (handles s)
            (trace s ++ [EvAddRef p; EvRelease p (wrap (c + 1))])).
Proof.
  intros Hne Hh Hr Hpn Hp Hc Hc0.
  pose proof (fresh_handle_free (handles s)) as Hfresh.
  unfold intrusive_ptr.assign_copy.
  destruct (decide (h ≠ r)) as [_|Hn]; [|contradiction].
  unfold mbind, M_bind.
  rewrite (temporary_swap_ok (λ tmp, intrusive_ptr.ctor_copy tmp r) h s _
             (handles s) p p (ctor_copy_ok _ _ _ _ _ Hfresh Hr Hpn Hp) eq_refl
             Hfresh Hh).
  destruct (decide (p = nullptr)) as [|_]; [contradiction|].
  cbn [after_add_ref heap]. rewrite lookup_insert_eq.
  change (State (<[p:=wrap (c + 1)]> (heap _)) ?hs ?t)
    with (State (<[p:=wrap (c + 1)]> (heap s)) hs t).
  rewrite (insert_id _ _ _ Hh).
  pose proof (acquire_then_release p c
                (<[fresh (dom (handles s)) := p]> (handles s)) (handles s) s
                Hp Hc Hc0) as Heq.
  unfold after_add_ref in Heq. cbn [with_handles handles heap trace] in Heq |- *.
  unfold mret, M_ret. f_equal. exact Heq.
Qed.

Lemma copy_assignment_same_object_witness :
  intrusive_ptr.assign_copy 0 1 shared_state
  = Ok 0%nat (State (heap shared_state) (handles shared_state)
                (trace shared_state ++ [EvAddRef 16; EvRelease 16 3])).
Proof.
  apply (copy_assignment_same_object shared_state 0 1 16 2).
  - discriminate.
  - reflexivity.
  - reflexivity.
  - discriminate.
  - reflexivity.
  - unfold size_t_modulus. lia.
  - discriminate.
Defined.

(** ** Assignment and reset from a raw pointer *)

(** X9. [h = r] for a raw pointer [r] does what [h.reset(r)] does and
    returns [h]: in every state, failures included, the outcome is that
    of [reset] followed by the return of [h]. *)
Theorem raw_assignment_is_reset (s : state) (h : nat) (r : Z) :
  intrusive_ptr.assign_raw h r s
  = (intrusive_ptr.reset_raw h r ≫= λ _, mret h) s.
Proof.
  unfold intrusive_ptr.assign_raw, intrusive_ptr.reset_raw.
  unfold mbind, M_bind, field_read.
  destruct (handles s !! h) as [p|]; [|reflexivity].
  destruct (decide (p ≠ r)); reflexivity.
Qed.

(** X10. [h.reset(p, true)] on a handle that already holds [p] is not
    guarded the way [h.reset(p)] is: it acquires [p] and then releases
    it.  With a counter [c] that is not 0 the release does not observe
    1, and heap and handles are exactly as before. *)
Theorem reset_acquiring_same_pointer (s : state) (h : nat) (p c : Z) :
  handles s !! h = Some p → p ≠ nullptr → heap s !! p = Some c →
  0 ≤ c < size_t_modulus → c ≠ 0 →
  intrusive_ptr.reset_raw_add_ref h p true s
  = Ok tt (State (heap s) (handles s)
             (trace s ++ [EvAddRef p; EvRelease p (wrap (c + 1))])).
Proof.
  intros Hh Hpn Hp Hc Hc0.
  pose proof (fresh_handle_free (handles s)) as Hfresh.
  assert (Hacq : acquires p true = true) by (apply acquires_true; tauto).
  unfold intrusive_ptr.reset_raw_add_ref.
  rewrite (temporary_swap_ok (λ tmp, intrusive_ptr.ctor_raw tmp p true) h s _
             (handles s) p p (ctor_raw_acquire _ _ _ _ _ Hfresh Hacq Hp) eq_refl
             Hfresh Hh).
  destruct (decide (p = nullptr)) as [|_]; [contradiction|].
  cbn [after_add_ref heap]. rewrite lookup_insert_eq.
  rewrite (insert_id _ _ _ Hh).
  pose proof (acquire_then_release p c
                (<[fresh (dom (handles s)) := p]> (handles s)) (handles s) s
                Hp Hc Hc0) as Heq.
  unfold after_add_ref in Heq. cbn [with_handles handles heap trace] in Heq |- *.
  f_equal. exact Heq.
Qed.

Lemma reset_acquiring_same_pointer_witness :
  intrusive_ptr.reset_raw_add_ref 0 16 true spec_state
  = Ok tt (State (heap spec_state) (handles spec_state)
             (trace spec_state ++ [EvAddRef 16; EvRelease 16 2])).
Proof.
  apply (reset_acquiring_same_pointer spec_state 0 16 1).
  - reflexivity.
  - discriminate.
  - reflexivity.
  - unfold size_t_modulus. lia.
  - discriminate.
Defined.

(** X11. [h.reset(p, false)] on a handle that already holds [p]
    releases [p] once and acquires nothing, and [h] still holds [p].
    When the counter was 1 the object is deleted and [h] is left holding
    the address of a dead object, which [operator->] returns without a
    failed assertion. *)
Theorem reset_adopting_same_pointer (s : state) (h : nat) (p c : Z) :
  handles s !! h = Some p → p ≠ nullptr → heap s !! p = Some c →
  ∃ s',
    intrusive_ptr.reset_raw_add_ref h p false s = Ok tt s' ∧
    handles s' = handles s ∧
    trace s' = trace s ++ release_events p c ∧
    (c ≠ 1 → heap s' = <[p := wrap (c - 1)]> (heap s)) ∧
    (c = 1 → heap s' !! p = None ∧
             intrusive_ptr.operator_arrow h s' = Ok p s').
Proof.
  intros Hh Hpn Hp.
  pose proof (fresh_handle_free (handles s)) as Hfresh.
  assert (Hacq : acquires p false = false) by (unfold acquires; apply andb_false_r).
  unfold intrusive_ptr.reset_raw_add_ref.
  rewrite (temporary_swap_ok (λ tmp, intrusive_ptr.ctor_raw tmp p false) h s _
             (handles s) p p (ctor_raw_plain _ _ _ _ Hfresh Hacq) eq_refl
             Hfresh Hh).
  destruct (decide (p = nullptr)) as [|_]; [contradiction|].
  cbn [with_handles heap]. rewrite Hp, (insert_id _ _ _ Hh).
  eexists. split; [reflexivity|].
  cbn [with_handles handles heap trace]. rewrite trace_after_release.
  split; [done|]. split; [done|]. unfold after_release. split.
  - intros Hc. destruct (c =? 1) eqn:E; [apply Z.eqb_eq in E; contradiction|].
    reflexivity.
  - intros ->. cbn. split; [apply lookup_delete_eq|].
    unfold intrusive_ptr.operator_arrow. unfold_m. cbn. rewrite Hh.
    destruct (p =? nullptr) eqn:E; [apply Z.eqb_eq in E; contradiction|].
    reflexivity.
Qed.

Lemma reset_adopting_same_pointer_witness :
  ∃ s', intrusive_ptr.reset_raw_add_ref 0 16 false spec_state = Ok tt s' ∧
        handles s' !! 0%nat = Some 16 ∧ heap s' !! 16 = None.
Proof.
  destruct (reset_adopting_same_pointer spec_state 0 16 1)
    as (s' & H & Hh & _ & _ & H1).
  - reflexivity.
  - discriminate.
  - reflexivity.
  - exists s'. split; [exact H|]. rewrite Hh. split; [reflexivity|].
    now apply H1.
Defined.

(** ** Swap *)

(** X12. [a.swap(b)], and the free [swap(a, b)] alike, exchanges the
    pointers of the two handles; no counter is touched and no free
    function is called.  Swapping in the other order gives the same
    state, and swapping twice gives back the state before. *)
Theorem swap_exchanges (s : state) (a b : nat) (x y : Z) :
  handles s !! a = Some x → handles s !! b = Some y →
  ∃ s1,
    intrusive_ptr.swap a b s = Ok tt s1 ∧
    free_swap a b s = Ok tt s1 ∧
    intrusive_ptr.swap b a s = Ok tt s1 ∧
    handles s1 !! a = Some y ∧ handles s1 !! b = Some x ∧
    heap s1 = heap s ∧ trace s1 = trace s ∧
    intrusive_ptr.swap a b s1 = Ok tt s.
Proof.
  intros Ha Hb.
  assert (Hmap : <[b := x]> (<[a := y]> (handles s))
                 = <[a := y]> (<[b := x]> (handles s))).
  { destruct (decide (a = b)) as [->|Hne].
    - assert (x = y) as -> by congruence. reflexivity.
    - now apply insert_insert_ne. }
  exists (with_handles (<[b := x]> (<[a := y]> (handles s))) s).
  split; [exact (swap_ok _ _ _ _ _ Ha Hb)|].
  split; [exact (swap_ok _ _ _ _ _ Ha Hb)|].
  split; [rewrite Hmap; exact (swap_ok _ _ _ _ _ Hb Ha)|].
  cbn [with_handles handles heap trace].
  assert (Ha1 : <[b := x]> (<[a := y]> (handles s)) !! a = Some y).
  { rewrite Hmap. apply lookup_insert_eq. }
  assert (Hb1 : <[b := x]> (<[a := y]> (handles s)) !! b = Some x)
    by apply lookup_insert_eq.
  split; [exact Ha1|]. split; [exact Hb1|]. split; [done|]. split; [done|].
  rewrite (swap_ok _ a b y x) by (cbn; assumption).
  unfold with_handles. cbn [handles heap trace]. f_equal.
  rewrite <- (state_eta s) at 4. f_equal.
  apply map_eq. intros i.
  destruct (decide (i = b)) as [->|Hib].
  - rewrite lookup_insert_eq. congruence.
  - rewrite lookup_insert_ne by done.
    destruct (decide (i = a)) as [->|Hia].
    + rewrite lookup_insert_eq. congruence.
    + now rewrite !lookup_insert_ne by done.
Qed.

Lemma swap_exchanges_witness :
  ∃ s1, intrusive_ptr.swap 0 1 two_objects_state = Ok tt s1 ∧
        handles s1 !! 0%nat = Some 32 ∧ handles s1 !! 1%nat = Some 16 ∧
        intrusive_ptr.swap 0 1 s1 = Ok tt two_objects_state.
Proof.
  destruct (swap_exchanges two_objects_state 0 1 16 32)
    as (s1 & H & _ & _ & Ha & Hb & _ & _ & Hback).
  - reflexivity.
  - reflexivity.
  - exists s1. repeat split; assumption.
Defined.

(** ** Null handles *)

(** X13. [get] returns the stored pointer and the boolean conversion is
    true exactly when it is not null, both without a change of state.
    After [detach], and for the source of a move construction, the
    handle is null: its boolean conversion is false and dereferencing it
    fails the assertion. *)
Theorem null_after_giving_up (s : state) (h h2 : nat) (p : Z) :
  handles s !! h = Some p → handles s !! h2 = None →
  intrusive_ptr.get h s = Ok p s ∧
  intrusive_ptr.operator_bool h s = Ok (bool_decide (p ≠ nullptr)) s ∧
  (∃ s1, intrusive_ptr.detach h s = Ok p s1 ∧
         intrusive_ptr.get h s1 = Ok nullptr s1 ∧
         intrusive_ptr.operator_bool h s1 = Ok false s1 ∧
         intrusive_ptr.operator_star h s1 = AssertionViolation) ∧
  (∃ s2, intrusive_ptr.ctor_move h2 h s = Ok tt s2 ∧
         intrusive_ptr.get h2 s2 = Ok p s2 ∧
         intrusive_ptr.get h s2 = Ok nullptr s2 ∧
         intrusive_ptr.operator_bool h s2 = Ok false s2 ∧
         intrusive_ptr.operator_star h s2 = AssertionViolation).
Proof.
  intros Hh Hh2. assert (Hne : h2 ≠ h) by congruence.
  split; [|split; [|split]].
  - unfold intrusive_ptr.get, field_read. now rewrite Hh.
  - unfold intrusive_ptr.operator_bool. unfold_m. rewrite Hh.
    now rewrite Z_neqb_decide.
  - eexists. split; [exact (detach_ok _ _ _ Hh)|].
    unfold intrusive_ptr.get, intrusive_ptr.operator_bool,
      intrusive_ptr.operator_star. unfold_m. cbn.
    rewrite lookup_insert_eq. done.
  - eexists. split; [exact (ctor_move_ok _ _ _ _ Hh2 Hh)|].
    unfold intrusive_ptr.get, intrusive_ptr.operator_bool,
      intrusive_ptr.operator_star. unfold_m. cbn.
    rewrite lookup_insert_eq, lookup_insert_ne, lookup_insert_eq by done. done.
Qed.

Lemma null_after_giving_up_witness :
  intrusive_ptr.operator_bool 0 spec_state = Ok true spec_state ∧
  ∃ s1, intrusive_ptr.detach 0 spec_state = Ok 16 s1 ∧
        intrusive_ptr.operator_bool 0 s1 = Ok false s1.
Proof.
  destruct (null_after_giving_up spec_state 0 1 16)
    as (_ & Hb & (s1 & Hd & _ & Hb1 & _) & _).
  - reflexivity.
  - reflexivity.
  - split; [exact Hb|]. exists s1. split; assumption.
Defined.

(** X14. A handle is detached and then destroyed: the destructor finds
    it null and releases nothing, so the counter of the object keeps the
    unit the handle had contributed.  Heap and trace are as before the
    two calls. *)
Theorem detach_then_destroy_keeps_count (s : state) (h : nat) (p : Z) :
  handles s !! h = Some p →
  ∃ s1 s2,
    intrusive_ptr.detach h s = Ok p s1 ∧
    intrusive_ptr.dtor h s1 = Ok tt s2 ∧
    heap s2 = heap s ∧ trace s2 = trace s ∧
    handles s2 = delete h (handles s).
Proof.
  intros Hh. eexists _, _. split; [exact (detach_ok _ _ _ Hh)|]. split.
  - apply dtor_null. cbn. apply lookup_insert_eq.
  - cbn. now rewrite delete_insert_eq.
Qed.

Lemma detach_then_destroy_keeps_count_witness :
  ∃ s1 s2,
    intrusive_ptr.detach 0 spec_state = Ok 16 s1 ∧
    intrusive_ptr.dtor 0 s1 = Ok tt s2 ∧
    heap s2 !! 16 = Some 1 ∧ handles s2 !! 0%nat = None.
Proof.
  destruct (detach_then_destroy_keeps_count spec_state 0 16)
    as (s1 & s2 & H1 & H2 & Hheap & _ & Hh).
  - reflexivity.
  - exists s1, s2. split; [exact H1|]. split; [exact H2|].
    rewrite Hheap, Hh. split; reflexivity.
Defined.

(** ** Equality *)

(** X15. For two handles holding [x] and [y], null or not: [a == b] is
    true exactly when [x = y], whichever side is a handle or a raw
    pointer and in whichever order; [!=] is its negation in every form;
    a handle is equal to itself.  No comparison changes the state. *)
Theorem equality_by_pointer (s : state) (a b : nat) (x y : Z) :
  handles s !! a = Some x → handles s !! b = Some y →
  operator_eq a b s = Ok (bool_decide (x = y)) s ∧
  operator_eq b a s = Ok (bool_decide (x = y)) s ∧
  operator_eq_raw a y s = Ok (bool_decide (x = y)) s ∧
  raw_operator_eq x b s = Ok (bool_decide (x = y)) s ∧
  operator_ne a b s = Ok (negb (bool_decide (x = y))) s ∧
  operator_ne_raw a y s = Ok (negb (bool_decide (x = y))) s ∧
  raw_operator_ne x b s = Ok (negb (bool_decide (x = y))) s ∧
  operator_eq a a s = Ok true s.
Proof.
  intros Ha Hb.
  unfold operator_eq, operator_ne, operator_eq_raw, operator_ne_raw,
    raw_operator_eq, raw_operator_ne, intrusive_ptr.get.
  unfold_m. rewrite Ha, Hb. cbn. rewrite Ha. cbn.
  rewrite (Z.eqb_sym y x), Z.eqb_refl, !Z_eqb_decide.
  repeat split; reflexivity.
Qed.

Lemma equality_by_pointer_witness :
  operator_eq 0 1 shared_state = Ok true shared_state ∧
  operator_ne 0 1 two_objects_state = Ok true two_objects_state.
Proof.
  destruct (equality_by_pointer shared_state 0 1 16 16) as (H1 & _).
  - reflexivity.
  - reflexivity.
  - destruct (equality_by_pointer two_objects_state 0 1 16 32)
      as (_ & _ & _ & _ & H2 & _).
    + reflexivity.
    + reflexivity.
    + split; [exact H1 | exact H2].
Defined.

(** ** [use_count] *)

(** X16. [use_count] returns the [size_t] counter converted to
    [unsigned int]: the counter modulo 2^32, without a change of state.
    It is the counter itself exactly when the counter is below 2^32. *)
Theorem use_count_truncates (s : state) (p c : Z) :
  heap s !! p = Some c → 0 ≤ c < size_t_modulus →
  ∃ u,
    intrusive_ref_counter.use_count p s = Ok u s ∧
    u = c mod unsigned_int_modulus ∧
    0 ≤ u < unsigned_int_modulus ∧
    (u = c ↔ c < unsigned_int_modulus).
Proof.
  intros Hp Hc. exists (c mod unsigned_int_modulus).
  unfold intrusive_ref_counter.use_count. unfold_m. rewrite Hp.
  unfold unsigned_int_modulus, size_t_modulus in *.
  change (2 ^ 32) with 4294967296 in *.
  split; [reflexivity|]. split; [reflexivity|].
  pose proof (Z.mod_pos_bound c 4294967296 ltac:(lia)) as Hb.
  split; [exact Hb|]. split.
  - intros Heq. lia.
  - intros Hlt. apply Z.mod_small. lia.
Qed.

Lemma use_count_truncates_witness :
  intrusive_ref_counter.use_count 16 wide_counter_state = Ok 5 wide_counter_state.
Proof.
  destruct (use_count_truncates wide_counter_state 16 (2 ^ 32 + 5))
    as (u & H & Hu & _).
  - reflexivity.
  - unfold size_t_modulus. lia.
  - rewrite H, Hu. reflexivity.
Defined.

(** ** Along a whole program *)

Lemma run_traced ops : ∀ s g s' g',
  run ops (s, g) = Some (s', g') →
  ∃ t, trace s' = trace s ++ t ∧ justified t = true.
Proof.
  induction ops as [|o ops IH]; intros s g s' g' H; cbn in H.
  - simplify_eq. exists []. now rewrite app_nil_r.
  - destruct (step o (s, g)) as [[s1 g1]|] eqn:Es; cbn in H; [|discriminate].
    unfold step in Es. cbn in Es.
    destruct (account o s g) as [g2|]; cbn in Es; [|discriminate].
    destruct (exec o s) as [a s2| |] eqn:Ee; simplify_eq.
    destruct (traced_exec o _ _ _ Ee) as (t1 & Ht1 & Hj1 & _).
    destruct (IH _ _ _ _ H) as (t2 & Ht2 & Hj2).
    exists (t1 ++ t2). split; [now rewrite Ht2, Ht1, app_assoc|].
    now apply justified_app.
Qed.

Lemma justified_delete_le n : ∀ t q,
  (length t ≤ n)%nat → justified t = true → EvDelete q ∈ t → EvRelease q 1 ∈ t.
Proof.
  induction n as [|n IH]; intros t q Hlen Hj Hin.
  - destruct t; [inversion Hin | cbn in Hlen; lia].
  - destruct t as [|e t]; [inversion Hin|]. cbn in Hlen.
    destruct e as [p|p old|p]; cbn in Hj.
    + apply elem_of_cons in Hin as [Heq|Hin]; [discriminate|].
      apply elem_of_cons. right. apply (IH t q); [lia | done | done].
    + apply elem_of_cons in Hin as [Heq|Hin]; [discriminate|].
      destruct (old =? 1) eqn:E.
      * apply Z.eqb_eq in E. subst old.
        destruct t as [|[r|r old'|r] t]; try discriminate. cbn in Hlen.
        apply andb_true_iff in Hj as [Hpr Hj]. apply Z.eqb_eq in Hpr. subst r.
        apply elem_of_cons in Hin as [Heq|Hin].
        -- injection Heq as ->. apply elem_of_cons. now left.
        -- apply elem_of_cons. right. apply elem_of_cons. right.
           apply (IH t q); [lia | done | done].
      * apply elem_of_cons. right. apply (IH t q); [lia | done | done].
    + discriminate.
Qed.

(** X17. In the state reached by any program run from the empty store
    within the contract, with fewer than 2^64 acquisitions, no handle
    dangles: a handle that is not null holds the address of a live
    object whose counter is at least 1, and both dereference operators
    succeed on it. *)
Theorem handles_never_dangle (ops : list op) (s : state) (g : Z → nat)
    (h : nat) (p : Z) :
  run ops (init, no_owed) = Some (s, g) →
  Z.of_nat (add_refs (trace s)) < size_t_modulus →
  handles s !! h = Some p → p ≠ nullptr →
  ∃ c, heap s !! p = Some c ∧ 1 ≤ c ∧
       intrusive_ptr.operator_arrow h s = Ok p s ∧
       intrusive_ptr.operator_star h s = Ok (Ref p) s.
Proof.
  intros Hrun Hb Hh Hp.
  pose proof (run_coherent ops _ _ _ _ coherent_init Hrun Hb) as Hc.
  destruct (handles_live _ _ Hc h p Hh Hp) as [c Hheap].
  exists c. split; [exact Hheap|]. split.
  - pose proof (count_exact _ _ Hc p c Hheap) as Hk.
    pose proof (holders_held _ _ _ Hh). lia.
  - unfold intrusive_ptr.operator_arrow, intrusive_ptr.operator_star.
    unfold_m. rewrite Hh.
    destruct (p =? nullptr) eqn:E; [apply Z.eqb_eq in E; contradiction|].
    split; reflexivity.
Qed.

Lemma handles_never_dangle_witness :
  ∃ s g c, run [OpNew 16; OpCtorRaw 0 16 true; OpCtorCopy 1 0; OpReset 0]
               (init, no_owed) = Some (s, g) ∧
           heap s !! 16 = Some c ∧ 1 ≤ c ∧
           intrusive_ptr.operator_arrow 1 s = Ok 16 s.
Proof.
  destruct (run [OpNew 16; OpCtorRaw 0 16 true; OpCtorCopy 1 0; OpReset 0]
                (init, no_owed)) as [[s g]|] eqn:Hrun;
    [|vm_compute in Hrun; discriminate].
  assert (Hb : Z.of_nat (add_refs (trace s)) < size_t_modulus).
  { vm_compute in Hrun. injection Hrun as <- <-. vm_compute. reflexivity. }
  assert (Hh : handles s !! 1%nat = Some 16).
  { vm_compute in Hrun. injection Hrun as <- <-. vm_compute. reflexivity. }
  destruct (handles_never_dangle _ s g 1 16 Hrun Hb Hh) as (c & Hc & Hpos & Ha & _).
  - discriminate.
  - exists s, g, c. repeat split; assumption.
Defined.

(** X18. In such a state, destroying a handle that holds [p] destroys
    the object exactly when that handle is the only outstanding
    reference: it is the only holder and no caller holds a reference. *)
Theorem last_handle_destroys (ops : list op) (s : state) (g : Z → nat)
    (h : nat) (p : Z) :
  run ops (init, no_owed) = Some (s, g) →
  Z.of_nat (add_refs (trace s)) < size_t_modulus →
  handles s !! h = Some p → p ≠ nullptr →
  ∃ s', intrusive_ptr.dtor h s = Ok tt s' ∧
        (heap s' !! p = None ↔ holders p (handles s) = 1%nat ∧ g p = 0%nat).
Proof.
  intros Hrun Hb Hh Hp.
  pose proof (run_coherent ops _ _ _ _ coherent_init Hrun Hb) as Hc.
  destruct (handles_live _ _ Hc h p Hh Hp) as [c Hheap].
  pose proof (count_exact _ _ Hc p c Hheap) as Hk.
  pose proof (holders_held _ _ _ Hh) as Hpos.
  eexists. split; [exact (dtor_ok _ _ _ _ Hh Hp Hheap)|].
  cbn [with_handles heap]. unfold after_release.
  destruct (c =? 1) eqn:E; cbn [heap].
  - apply Z.eqb_eq in E. rewrite lookup_delete_eq. split; [intros _; lia | done].
  - apply Z.eqb_neq in E. rewrite lookup_insert_eq.
    split; [discriminate | intros [H1 H2]; lia].
Qed.

Lemma last_handle_destroys_witness :
  ∃ s g s', run [OpNew 16; OpCtorRaw 0 16 true] (init, no_owed) = Some (s, g) ∧
            intrusive_ptr.dtor 0 s = Ok tt s' ∧ heap s' !! 16 = None.
Proof.
  destruct (run [OpNew 16; OpCtorRaw 0 16 true] (init, no_owed))
    as [[s g]|] eqn:Hrun; [|vm_compute in Hrun; discriminate].
  assert (Hb : Z.of_nat (add_refs (trace s)) < size_t_modulus).
  { vm_compute in Hrun. injection Hrun as <- <-. vm_compute. reflexivity. }
  assert (Hh : handles s !! 0%nat = Some 16).
  { vm_compute in Hrun. injection Hrun as <- <-. vm_compute. reflexivity. }
  assert (Hk : holders 16 (handles s) = 1%nat ∧ g 16 = 0%nat).
  { vm_compute in Hrun. injection Hrun as <- <-. vm_compute. split; reflexivity. }
  destruct (last_handle_destroys _ s g 0 16 Hrun Hb Hh) as (s' & Hd & Hiff).
  - discriminate.
  - exists s, g, s'. split; [reflexivity|]. split; [exact Hd|]. now apply Hiff.
Defined.

(** X19. Over a whole program run from the empty store, every [delete]
    directly follows a release that observed 1 and every such release is
    directly followed by the [delete]: an object is deleted only by the
    release of its last reference. *)
Theorem deletes_follow_last_release (ops : list op) (s : state) (g : Z → nat) :
  run ops (init, no_owed) = Some (s, g) →
  justified (trace s) = true ∧
  ∀ q, EvDelete q ∈ trace s → EvRelease q 1 ∈ trace s.
Proof.
  intros Hrun. destruct (run_traced _ _ _ _ _ Hrun) as (t & Ht & Hj).
  cbn in Ht. subst t. split; [exact Hj|].
  intros q Hin. now apply (justified_delete_le (length (trace s))).
Qed.

Lemma deletes_follow_last_release_witness :
  ∃ s g, run (scenario ++ [OpRelease 16]) (init, no_owed) = Some (s, g) ∧
         EvDelete 16 ∈ trace s ∧ EvRelease 16 1 ∈ trace s.
Proof.
  destruct (run (scenario ++ [OpRelease 16]) (init, no_owed))
    as [[s g]|] eqn:Hrun; [|vm_compute in Hrun; discriminate].
  assert (Hin : EvDelete 16 ∈ trace s).
  { vm_compute in Hrun. injection Hrun as <- <-.
    apply list_elem_of_lookup. exists 4%nat. reflexivity. }
  destruct (deletes_follow_last_release _ s g Hrun) as [_ Hall].
  exists s, g. split; [reflexivity|]. split; [exact Hin | exact (Hall 16 Hin)].
Defined.
